(** * The process pool of Pebble: an embedding of [pebble/process/pool.py]

    The coordinator side of the pool (Task Manager, Worker Manager, Pool
    Manager and the scheduler loop) is embedded as a state-and-exception
    monad over one record that holds the mutable objects the Python code
    shares.  The worker process is embedded separately, as a program run
    against the answers of its channel. *)

From stdpp Require Import base option list gmap strings.
From Stdlib Require Import ZArith Lia.

Local Open Scope Z_scope.

(** ** Data *)

(** The triple [(function, args, kwargs)] that a worker unpacks in
    [execute_next_task]. *)
Record payload := Payload {
  function : string;
  args : list Z;
  kwargs : list (string * Z)
}.

(** The [_metadata] slot of a task.  The pool reads it as the payload when
    it dispatches ([NewTask(task.number, task._metadata)]) and overwrites it
    with the pid of the claiming worker in [task_start]. *)
Inductive metadata :=
| MPayload (p : payload)
| MWorker (pid : Z).

(** Modelled from the spec: the Task handle class is not part of the
    sources.  These are the attributes the pool reads and writes; clock
    readings and durations are integers in one unit of time, [timeout] is
    [None] or [Some 0] when the task has no deadline. *)
Record Task := mkTask {
  number : Z;
  timeout : option Z;
  cancelled : bool;
  _metadata : metadata;
  _timestamp : Z
}.

(** Modelled from the spec: the [started] property of the absent Task class;
    the unit tests of the handle set [_timestamp] and then expect [started],
    and expect a new task not to be started. *)
Definition started (task : Task) : bool := bool_decide (0 < _timestamp task).

(** What [set_results] installs: a value or error of the payload, or one of
    the three errors the pool builds itself. *)
Inductive outcome :=
| Value (v : Z)
| UserError (e : string)
| TimeoutError (msg : string)
| TaskCancelled (msg : string)
| ProcessExpired (msg : string) (code : option Z).

(** The four namedtuples at the head of the module. *)
Inductive message :=
| NoMessage
| NewTask (id : Z) (payload : metadata)
| Results (task : Z) (results : outcome)
| Acknowledgement (worker : Z) (task : Z).

(** A worker process as the Worker Manager sees it: [pid], [is_alive()] and
    [exitcode] ([None] while the process runs). *)
Record Worker := mkWorker {
  pid : Z;
  is_alive : bool;
  exitcode : option Z
}.

(** What the coordinator does to the world outside its own tables, in the
    order it does it. *)
Inductive event :=
| SetResults (task : Task) (results : outcome)   (* task.set_results(results) *)
| QueueGet (item : option Task)                  (* task_queue.get() returned item *)
| QueueTaskDone                                  (* task_queue.task_done() *)
| Send (m : message)                             (* pool_channel.send(m) *)
| LockAcquire                                    (* workers_channel.lock entered *)
| LockRelease                                    (* workers_channel.lock left *)
| Stop (w : Worker)                              (* stop(worker) *)
| Spawn (w : Worker).                            (* worker_process(...) *)

(** The objects the three coordinator loops share. *)
Record Pool := mkPool {
  alive : bool;                       (* context.alive *)
  task_queue : list (option Task);    (* context.task_queue, head is next *)
  tasks : gmap Z Task;                (* TaskManager.tasks *)
  workers : gmap Z Worker;            (* WorkerManager.workers *)
  workers_number : Z;                 (* WorkerManager.workers_number *)
  next_pid : Z;                       (* pid the system gives the next child *)
  clock : Z;                          (* what time.time() returns *)
  events : list event
}.

Global Instance payload_eq_dec : EqDecision payload.
Proof. solve_decision. Defined.
Global Instance metadata_eq_dec : EqDecision metadata.
Proof. solve_decision. Defined.
Global Instance Task_eq_dec : EqDecision Task.
Proof. solve_decision. Defined.
Global Instance outcome_eq_dec : EqDecision outcome.
Proof. solve_decision. Defined.
Global Instance message_eq_dec : EqDecision message.
Proof. solve_decision. Defined.
Global Instance Worker_eq_dec : EqDecision Worker.
Proof. solve_decision. Defined.
Global Instance event_eq_dec : EqDecision event.
Proof. solve_decision. Defined.

Definition set_tasks (m : gmap Z Task) (s : Pool) : Pool :=
  mkPool (alive s) (task_queue s) m (workers s) (workers_number s)
         (next_pid s) (clock s) (events s).

Definition set_workers (m : gmap Z Worker) (s : Pool) : Pool :=
  mkPool (alive s) (task_queue s) (tasks s) m (workers_number s)
         (next_pid s) (clock s) (events s).

Definition set_task_queue (q : list (option Task)) (s : Pool) : Pool :=
  mkPool (alive s) q (tasks s) (workers s) (workers_number s)
         (next_pid s) (clock s) (events s).

Definition set_alive (b : bool) (s : Pool) : Pool :=
  mkPool b (task_queue s) (tasks s) (workers s) (workers_number s)
         (next_pid s) (clock s) (events s).

Definition set_next_pid (p : Z) (s : Pool) : Pool :=
  mkPool (alive s) (task_queue s) (tasks s) (workers s) (workers_number s)
         p (clock s) (events s).

Definition set_clock (c : Z) (s : Pool) : Pool :=
  mkPool (alive s) (task_queue s) (tasks s) (workers s) (workers_number s)
         (next_pid s) c (events s).

Definition add_event (e : event) (s : Pool) : Pool :=
  mkPool (alive s) (task_queue s) (tasks s) (workers s) (workers_number s)
         (next_pid s) (clock s) (events s ++ [e]).

(** ** The monad of the coordinator *)

Inductive exn := KeyError | LookupError | TypeError.

Global Instance exn_eq_dec : EqDecision exn.
Proof. solve_decision. Defined.

Inductive res (A : Type) :=
| Ok (a : A) (s : Pool)
| Raise (e : exn) (s : Pool).
Arguments Ok {A} a s.
Arguments Raise {A} e s.

Definition M (A : Type) : Type := Pool -> res A.

Definition ret {A} (a : A) : M A := fun s => Ok a s.

Definition bind {A B} (m : M A) (f : A -> M B) : M B :=
  fun s => match m s with
           | Ok a s' => f a s'
           | Raise e s' => Raise e s'
           end.

Definition raise {A} (e : exn) : M A := fun s => Raise e s.

Notation "x <- m ;; k" := (bind m (fun x => k))
  (at level 100, m at next level, right associativity).
Notation "m ;;; k" := (bind m (fun _ => k))
  (at level 100, right associativity).

(** [try: body / except e: handler / else: rest]: only what [body] raises
    is caught. *)
Definition try_except_else {A B} (body : M A) (e : exn)
    (handler : M B) (rest : A -> M B) : M B :=
  fun s => match body s with
           | Ok a s' => rest a s'
           | Raise e' s' => if decide (e' = e) then handler s' else Raise e' s'
           end.

(** A [for] statement over a tuple. *)
Fixpoint for_each {A} (l : list A) (body : A -> M unit) : M unit :=
  match l with
  | [] => ret tt
  | x :: l' => body x ;;; for_each l' body
  end.

Definition emit (e : event) : M unit := fun s => Ok tt (add_event e s).

(** The pool a result leaves behind, whether it returned or raised. *)
Definition final {A} (r : res A) : Pool :=
  match r with Ok _ s => s | Raise _ s => s end.

(** ** TaskManager *)

Definition register (task : Task) : M unit :=
  fun s => Ok tt (set_tasks (<[number task := task]> (tasks s)) s).

(** [self.tasks[task_id]] *)
Definition tasks_getitem (task_id : Z) : M Task :=
  fun s => match tasks s !! task_id with
           | Some task => Ok task s
           | None => Raise KeyError s
           end.

(** [self.tasks.pop(task_id)] *)
Definition tasks_pop (task_id : Z) : M Task :=
  fun s => match tasks s !! task_id with
           | Some task => Ok task (set_tasks (delete task_id (tasks s)) s)
           | None => Raise KeyError s
           end.

(** The task object found under [task_id] is updated in place: it stays in
    the table under the same key. *)
Definition stamp (worker_id now : Z) (task : Task) : Task :=
  mkTask (number task) (timeout task) (cancelled task) (MWorker worker_id) now.

Definition task_start (task_id worker_id : Z) : M unit :=
  task <- tasks_getitem task_id ;;
  fun s => Ok tt (set_tasks (<[task_id := stamp worker_id (clock s) task]> (tasks s)) s).

Definition task_done (task_id : Z) (results : outcome) : M unit :=
  try_except_else (tasks_pop task_id) KeyError
    (ret tt)
    (fun task => emit (SetResults task results) ;;; emit QueueTaskDone).

(** [task.timeout and task.started]: a timeout that is [None] or [0] is
    false.  [now] is what [time.time()] returns; the clock is taken not to
    move within one call of [inspect_tasks]. *)
Definition has_timeout (now : Z) (task : Task) : bool :=
  match timeout task with
  | Some tm =>
      if negb (tm =? 0) && started task
      then bool_decide (now - _timestamp task > tm)
      else false
  | None => false
  end.

(** [tuple(self.tasks.values())] *)
Definition tasks_values (s : Pool) : list Task := (map_to_list (tasks s)).*2.

Definition inspect_tasks : M (list Task * list Task) :=
  fun s =>
    let ts := tasks_values s in
    Ok (filter (fun t => has_timeout (clock s) t) ts,
        filter (fun t => started t && cancelled t) ts) s.

(** ** WorkerManager *)

Definition dispatch (task : Task) : M unit :=
  emit (Send (NewTask (number task) (_metadata task))).

(** [self.workers.values()] *)
Definition workers_values (s : Pool) : list Worker := (map_to_list (workers s)).*2.

(** [self.workers.pop(worker_id)] with an integer key. *)
Definition workers_pop (worker_id : Z) : M Worker :=
  fun s => match workers s !! worker_id with
           | Some w => Ok w (set_workers (delete worker_id (workers s)) s)
           | None => Raise KeyError s
           end.

(** [w.exitcode != 0]: [None] differs from [0]. *)
Definition abnormal (w : Worker) : bool := bool_decide (exitcode w ≠ Some 0).

Definition inspect_workers : M (list (Z * option Z)) :=
  fun s =>
    let expired := filter (fun w => negb (is_alive w)) (workers_values s) in
    (for_each expired (fun worker => _ <- workers_pop (pid worker) ;; ret tt) ;;;
     ret ((fun w => (pid w, exitcode w)) <$> filter (fun w => abnormal w) expired)) s.

(** The spawned child gets the next pid of the system, runs, and has no
    exit code yet. *)
Definition new_worker : M unit :=
  fun s =>
    let worker := mkWorker (next_pid s) true None in
    Ok tt (set_workers (<[pid worker := worker]> (workers s))
             (set_next_pid (next_pid s + 1) (add_event (Spawn worker) s))).

(** [range(self.workers_number - len(self.workers))] is built once, before
    the first child is spawned. *)
Definition create_workers : M unit :=
  fun s =>
    for_each (seq 0 (Z.to_nat (workers_number s - Z.of_nat (size (workers s)))))
             (fun _ => new_worker) s.

(** [with self.workers_channel.lock: body] *)
Definition with_lock {A} (body : M A) : M A :=
  fun s => match body (add_event LockAcquire s) with
           | Ok a s' => Ok a (add_event LockRelease s')
           | Raise e s' => Raise e (add_event LockRelease s')
           end.

(** [self.workers.pop(worker_id)] with whatever a [_metadata] slot holds: a
    payload triple has a dict in it and cannot be hashed. *)
Definition workers_pop_key (worker_id : metadata) : M Worker :=
  match worker_id with
  | MWorker p => workers_pop p
  | MPayload _ => raise TypeError
  end.

Definition stop_worker (worker_id : metadata) : M unit :=
  try_except_else
    (with_lock (w <- workers_pop_key worker_id ;; emit (Stop w)))
    KeyError
    (ret tt)
    (fun _ => ret tt).

Definition stop_workers : M unit :=
  fun s => for_each ((map_to_list (workers s)).*1)
                    (fun worker_id => stop_worker (MWorker worker_id)) s.

(** ** PoolManager *)

Definition schedule (task : Task) : M unit :=
  register task ;;; dispatch task.

Definition process_message (m : message) : M unit :=
  match m with
  | Acknowledgement worker task => task_start task worker
  | Results task results => task_done task results
  | _ => ret tt
  end.

Definition update_tasks : M unit :=
  tc <- inspect_tasks ;;
  for_each tc.1 (fun task => task_done (number task) (TimeoutError "Timeout")) ;;;
  for_each tc.2 (fun task => task_done (number task) (TaskCancelled "Cancelled")) ;;;
  for_each (_metadata <$> (tc.1 ++ tc.2)) stop_worker.

(** The first task of [tuple(self.task_manager.tasks.values())] whose
    [_metadata] equals the pid. *)
Definition worker_id_lookup (worker_id : Z) : M Task :=
  fun s => match list_find (fun t => _metadata t = MWorker worker_id) (tasks_values s) with
           | Some (_, task) => Ok task s
           | None => Raise LookupError s
           end.

Definition handle_worker_expiration (expiration : Z * option Z) : M unit :=
  let '(worker_id, exitcode) := expiration in
  try_except_else (worker_id_lookup worker_id) LookupError
    (ret tt)
    (fun task => task_done (number task) (ProcessExpired "Abnormal termination" exitcode)).

Definition update_workers : M unit :=
  expirations <- inspect_workers ;;
  for_each expirations handle_worker_expiration ;;;
  create_workers.

Definition update_status : M unit :=
  update_tasks ;;; update_workers.

(** ** Pool facade and scheduler loop *)

(** Modelled from the spec: [BasePool.stop], which [Pool.stop] calls first,
    is not part of the sources; the spec has it clear the [alive] flag.
    [Pool.stop] then puts the [None] item on the queue. *)
Definition Pool_stop : M unit :=
  fun s => Ok tt (set_task_queue (task_queue s ++ [None]) (set_alive false s)).

(** Where the scheduler thread stands: at the test of [while context.alive],
    inside [task_queue.get()], or past the loop. *)
Inductive scheduler_pc := AtWhile | AtGet | Finished.

Global Instance scheduler_pc_eq_dec : EqDecision scheduler_pc.
Proof. solve_decision. Defined.

(** One turn of [task_scheduler_loop] over [pool_get_next_task]: the test of
    the [while], or the [get] with the branch that follows it; a yielded task
    goes through [pool_manager.schedule] before the generator resumes.  On an
    empty queue [get] blocks: the turn changes nothing. *)
Definition task_scheduler_turn (pc : scheduler_pc) : M scheduler_pc :=
  match pc with
  | AtWhile => fun s => Ok (if alive s then AtGet else Finished) s
  | AtGet =>
      fun s =>
        match task_queue s with
        | [] => Ok AtGet s
        | item :: rest =>
            (emit (QueueGet item) ;;;
             match item with
             | Some task =>
                 if negb (cancelled task)
                 then schedule task ;;; ret AtWhile
                 else emit QueueTaskDone ;;; ret AtWhile
             | None => emit QueueTaskDone ;;; ret AtWhile
             end) (set_task_queue rest s)
        end
  | Finished => ret Finished
  end.

(** ** Runs of the coordinator

    The three loops and the world around them take turns; each turn is one
    of the following. *)

(** Modelled from the spec: [cancel] of the absent Task class sets the
    [cancelled] flag of the handle, wherever the handle is. *)
Definition cancel (task : Task) : Task :=
  mkTask (number task) (timeout task) true (_metadata task) (_timestamp task).

Definition cancel_numbered (n : Z) (task : Task) : Task :=
  if decide (number task = n) then cancel task else task.

Definition exited (code : Z) (w : Worker) : Worker :=
  mkWorker (pid w) false (Some code).

Inductive action :=
| SchedulerTurn                      (* a turn of the scheduler loop *)
| MessageTurn (m : message)          (* the message loop handles m *)
| StatusTurn                         (* the status loop runs update_status *)
| Submit (task : Task)               (* a caller puts a task on the queue *)
| Cancel (n : Z)                     (* a caller cancels the task numbered n *)
| StopPool                           (* Pool.stop() *)
| Tick (now : Z)                     (* the clock moves *)
| WorkerExit (p : Z) (code : Z).     (* the process p ends with this code *)

Global Instance action_eq_dec : EqDecision action.
Proof. solve_decision. Defined.

Definition exec (a : action) (st : scheduler_pc * Pool) : scheduler_pc * Pool :=
  let '(pc, s) := st in
  match a with
  | SchedulerTurn =>
      match task_scheduler_turn pc s with
      | Ok pc' s' => (pc', s')
      | Raise _ s' => (Finished, s')
      end
  | MessageTurn m => (pc, final (process_message m s))
  | StatusTurn => (pc, final (update_status s))
  | Submit task => (pc, set_task_queue (task_queue s ++ [Some task]) s)
  | Cancel n =>
      (pc, set_tasks (cancel_numbered n <$> tasks s)
             (set_task_queue
                ((fun item : option Task => cancel_numbered n <$> item) <$> task_queue s) s))
  | StopPool => (pc, final (Pool_stop s))
  | Tick now => (pc, set_clock now s)
  | WorkerExit p code => (pc, set_workers (alter (exited code) p (workers s)) s)
  end.

Definition run (acts : list action) (st : scheduler_pc * Pool) : scheduler_pc * Pool :=
  foldl (fun st a => exec a st) st acts.

(** ** The worker process

    A worker runs alone in its process; what it sees of the rest is what its
    calls come back with.  The embedding runs the code of the worker against
    the replies the channel and the payloads are going to give, and keeps the
    trace of what the worker did. *)

(** The two errors [worker_process] catches; only the second has an
    [errno]. *)
Inductive failure :=
| EOFError
| EnvironmentError (errno : Z).

(** A call returns a value or raises one of them. *)
Inductive reply (A : Type) :=
| Returns (a : A)
| Fails (f : failure).
Arguments Returns {A} a.
Arguments Fails {A} f.

Inductive wevent :=
| WAcquire                 (* channel.lock entered *)
| WRelease                 (* channel.lock left *)
| WRecv (m : message)      (* channel.recv() returned m *)
| WSend (m : message)      (* channel.send(m) returned *)
| WExecute (p : payload).  (* execute(function, args, kwargs) entered *)

(** The replies still to come, call by call, and the trace so far.  A call
    with no reply left never returns. *)
Record World := mkWorld {
  poll_replies : list (reply bool);       (* channel.poll() *)
  poll0_replies : list (reply bool);      (* channel.poll(0) *)
  recv_replies : list (reply message);    (* channel.recv() *)
  send_replies : list (reply unit);       (* channel.send(m) *)
  execute_replies : list outcome;         (* execute(function, args, kwargs) *)
  trace : list wevent
}.

Definition set_poll_replies (l : list (reply bool)) (w : World) : World :=
  mkWorld l (poll0_replies w) (recv_replies w) (send_replies w) (execute_replies w) (trace w).

Definition set_poll0_replies (l : list (reply bool)) (w : World) : World :=
  mkWorld (poll_replies w) l (recv_replies w) (send_replies w) (execute_replies w) (trace w).

Definition set_recv_replies (l : list (reply message)) (w : World) : World :=
  mkWorld (poll_replies w) (poll0_replies w) l (send_replies w) (execute_replies w) (trace w).

Definition set_send_replies (l : list (reply unit)) (w : World) : World :=
  mkWorld (poll_replies w) (poll0_replies w) (recv_replies w) l (execute_replies w) (trace w).

Definition set_execute_replies (l : list outcome) (w : World) : World :=
  mkWorld (poll_replies w) (poll0_replies w) (recv_replies w) (send_replies w) l (trace w).

Definition log (e : wevent) (w : World) : World :=
  mkWorld (poll_replies w) (poll0_replies w) (recv_replies w) (send_replies w)
          (execute_replies w) (trace w ++ [e]).

Inductive wexn :=
| RuntimeError             (* raised by task_transaction *)
| ChannelError (f : failure) (* EOFError or EnvironmentError *)
| AttributeError           (* an attribute the object does not have *)
| UnpackError.             (* function, args, kwargs = task on a non-triple *)

(** How a piece of the worker ends: it returns, raises, waits for ever on a
    call, leaves the process through [os._exit], or the embedding runs out
    of fuel. *)
Inductive wres (A : Type) :=
| Done (a : A) (w : World)
| Raised (e : wexn) (w : World)
| Blocked (w : World)
| Exited (code : Z) (w : World)
| OutOfFuel (w : World).
Arguments Done {A} a w.
Arguments Raised {A} e w.
Arguments Blocked {A} w.
Arguments Exited {A} code w.
Arguments OutOfFuel {A} w.

Definition W (A : Type) : Type := World -> wres A.

Definition wret {A} (a : A) : W A := fun w => Done a w.

Definition wbind {A B} (m : W A) (f : A -> W B) : W B :=
  fun w => match m w with
           | Done a w' => f a w'
           | Raised e w' => Raised e w'
           | Blocked w' => Blocked w'
           | Exited c w' => Exited c w'
           | OutOfFuel w' => OutOfFuel w'
           end.

Notation "x <~ m ;; k" := (wbind m (fun x => k))
  (at level 100, m at next level, right associativity).

Definition wraise {A} (e : wexn) : W A := fun w => Raised e w.

Definition os_exit {A} (code : Z) : W A := fun w => Exited code w.

Definition wfinal {A} (r : wres A) : World :=
  match r with
  | Done _ w | Raised _ w | Blocked w | Exited _ w | OutOfFuel w => w
  end.

Definition channel_poll : W bool :=
  fun w => match poll_replies w with
           | [] => Blocked w
           | Returns b :: l => Done b (set_poll_replies l w)
           | Fails f :: l => Raised (ChannelError f) (set_poll_replies l w)
           end.

Definition channel_poll0 : W bool :=
  fun w => match poll0_replies w with
           | [] => Blocked w
           | Returns b :: l => Done b (set_poll0_replies l w)
           | Fails f :: l => Raised (ChannelError f) (set_poll0_replies l w)
           end.

Definition channel_recv : W message :=
  fun w => match recv_replies w with
           | [] => Blocked w
           | Returns m :: l => Done m (log (WRecv m) (set_recv_replies l w))
           | Fails f :: l => Raised (ChannelError f) (set_recv_replies l w)
           end.

Definition channel_send (m : message) : W unit :=
  fun w => match send_replies w with
           | [] => Blocked w
           | Returns _ :: l => Done tt (log (WSend m) (set_send_replies l w))
           | Fails f :: l => Raised (ChannelError f) (set_send_replies l w)
           end.

(** [with channel.lock: body]: the lock is left when the body returns or
    raises. *)
Definition channel_lock {A} (body : W A) : W A :=
  fun w => match body (log WAcquire w) with
           | Done a w' => Done a (log WRelease w')
           | Raised e w' => Raised e (log WRelease w')
           | r => r
           end.

(** [task.id] and [task.payload]: only a [NewTask] has these fields, and
    [None] has none. *)
Definition getattr_id (task : option message) : W Z :=
  match task with
  | Some (NewTask id _) => wret id
  | _ => wraise AttributeError
  end.

Definition getattr_payload (task : option message) : W metadata :=
  match task with
  | Some (NewTask _ payload) => wret payload
  | _ => wraise AttributeError
  end.

Definition task_transaction (getpid : Z) : W message :=
  channel_lock
    (ready <~ channel_poll0 ;;
     if ready
     then task <~ channel_recv ;;
          id <~ getattr_id (Some task) ;;
          _ <~ channel_send (Acknowledgement getpid id) ;;
          wret task
     else wraise RuntimeError).

(** [try: return task_transaction(channel) / except RuntimeError: continue]
    inside [while channel.poll()]; the function returns [None] when the loop
    ends. *)
Fixpoint fetch_task (fuel : nat) (getpid : Z) : W (option message) :=
  match fuel with
  | O => fun w => OutOfFuel w
  | S fuel' =>
      ready <~ channel_poll ;;
      if ready
      then fun w =>
             match task_transaction getpid w with
             | Done task w' => Done (Some task) w'
             | Raised RuntimeError w' => fetch_task fuel' getpid w'
             | Raised e w' => Raised e w'
             | Blocked w' => Blocked w'
             | Exited c w' => Exited c w'
             | OutOfFuel w' => OutOfFuel w'
             end
      else wret None
  end.

(** [execute] from [pebble.utils] runs the function and returns what it
    returned or raised. *)
Definition execute (p : payload) : W outcome :=
  fun w => match execute_replies (log (WExecute p) w) with
           | [] => Blocked (log (WExecute p) w)
           | r :: l => Done r (set_execute_replies l (log (WExecute p) w))
           end.

Definition execute_next_task (task : metadata) : W outcome :=
  match task with
  | MPayload p => execute p
  | MWorker _ => wraise UnpackError
  end.

(** Modelled from the spec: [send_results] of [pebble.process.utils] is not
    part of the sources; the spec has the worker send the [Results] message
    on the channel. *)
Definition send_results (m : message) : W unit := channel_send m.

(** The [for] loop of [worker_process] over [worker_get_next_task]:
    [counter] is what [next(counter)] returns next, and it is not called
    when [task_limit] is 0. *)
Fixpoint worker_loop (fuel : nat) (getpid task_limit counter : Z) : W unit :=
  match fuel with
  | O => fun w => OutOfFuel w
  | S fuel' =>
      if (task_limit =? 0) || (counter <? task_limit)
      then task <~ fetch_task fuel getpid ;;
           payload <~ getattr_payload task ;;
           results <~ execute_next_task payload ;;
           id <~ getattr_id task ;;
           _ <~ send_results (Results id results) ;;
           worker_loop fuel' getpid task_limit
                       (if task_limit =? 0 then counter else counter + 1)
      else wret tt
  end.

(** The parameters of a worker; for the two hooks, [None] when there is
    none and otherwise what [run_initializer] returns on it. *)
Record WorkerParameters := mkWorkerParameters {
  initializer : option bool;
  deinitializer : option bool;
  task_limit : Z
}.

Definition run_hook (hook : option bool) : W unit :=
  match hook with
  | Some false => os_exit 1
  | _ => wret tt
  end.

(** [except (EOFError, EnvironmentError) as error: os._exit(error.errno)];
    an [EOFError] has no [errno]. *)
Definition worker_process (params : WorkerParameters) (getpid : Z) (fuel : nat) : W unit :=
  _ <~ run_hook (initializer params) ;;
  _ <~ (fun w => match worker_loop fuel getpid (task_limit params) 0 w with
                 | Raised (ChannelError (EnvironmentError errno)) w' => Exited errno w'
                 | Raised (ChannelError EOFError) w' => Raised AttributeError w'
                 | r => r
                 end) ;;
  run_hook (deinitializer params).

(** What each event of a worker trace has right before it: an
    acknowledgement is sent under the lock, right after the task was
    received; a payload is executed right after the acknowledgement of its
    task was sent and the lock left; results are sent right after the
    payload of their task was executed; nothing else is sent, and nothing is
    received outside the lock. *)
Definition protocol (getpid : Z) (pre : list wevent) (e : wevent) : Prop :=
  match e with
  | WSend (Acknowledgement worker id) =>
      worker = getpid /\
      exists pre' payload, pre = pre' ++ [WAcquire; WRecv (NewTask id payload)]
  | WExecute p =>
      exists pre' id,
        pre = pre' ++ [WAcquire; WRecv (NewTask id (MPayload p));
                       WSend (Acknowledgement getpid id); WRelease]
  | WSend (Results id results) =>
      exists pre' p,
        pre = pre' ++ [WAcquire; WRecv (NewTask id (MPayload p));
                       WSend (Acknowledgement getpid id); WRelease; WExecute p]
  | WSend _ => False
  | WRecv _ => exists pre', pre = pre' ++ [WAcquire]
  | _ => True
  end.

(** ** Shape of the tables *)

(** Every task sits under its own number ([register] files it there and
    nothing renames it). *)
Definition tasks_keyed (s : Pool) : Prop :=
  map_Forall (fun k t => number t = k) (tasks s).

(** Every worker sits under its own pid. *)
Definition workers_keyed (s : Pool) : Prop :=
  map_Forall (fun k w => pid w = k) (workers s).

(** A deadline is a duration: it is not negative. *)
Definition timeout_ok (t : Task) : Prop :=
  match timeout t with Some tm => 0 <= tm | None => True end.

Global Instance timeout_ok_dec t : Decision (timeout_ok t).
Proof. unfold timeout_ok. destruct (timeout t); apply _. Defined.

Definition timeouts_ok (s : Pool) : Prop :=
  map_Forall (fun _ t => timeout_ok t) (tasks s).

(** A started task carries the pid of its worker in [_metadata]:
    [task_start] writes both at once. *)
(** The pid a [_metadata] slot holds, if it holds one. *)
Definition worker_of (t : Task) : option Z :=
  match _metadata t with MWorker p => Some p | MPayload _ => None end.

Definition owned (t : Task) : Prop :=
  started t = true -> is_Some (worker_of t).

Definition started_owned (s : Pool) : Prop :=
  map_Forall (fun _ t => owned t) (tasks s).

(** ** What a status turn leaves in the event list *)

(** The events of [for task in l: task_done(task.number, o)] on the table
    [m]: a task still under its number is resolved, one already taken out is
    passed over. *)
Fixpoint resolve_events (m : gmap Z Task) (l : list Task) (o : outcome) : list event :=
  match l with
  | [] => []
  | t :: l' =>
      match m !! number t with
      | Some t' => SetResults t' o :: QueueTaskDone :: resolve_events (delete (number t) m) l' o
      | None => resolve_events m l' o
      end
  end.

Definition remove_tasks (l : list Task) (m : gmap Z Task) : gmap Z Task :=
  foldl (fun m t => delete (number t) m) m l.

(** The events of [for worker_id in pids: stop_worker(worker_id)] on the
    table [ws]. *)
Fixpoint stop_events (ws : gmap Z Worker) (pids : list Z) : list event :=
  match pids with
  | [] => []
  | p :: pids' =>
      match ws !! p with
      | Some w => LockAcquire :: Stop w :: LockRelease :: stop_events (delete p ws) pids'
      | None => LockAcquire :: LockRelease :: stop_events ws pids'
      end
  end.

Definition remove_workers (pids : list Z) (ws : gmap Z Worker) : gmap Z Worker :=
  foldl (fun ws p => delete p ws) ws pids.

(** [set_results] calls on the task numbered [n]. *)
Definition resolves (n : Z) (e : event) : bool :=
  match e with
  | SetResults t _ => bool_decide (number t = n)
  | _ => false
  end.

Definition is_resolution (e : event) : bool :=
  match e with SetResults _ _ | QueueTaskDone => true | _ => false end.

Definition is_stop (e : event) : bool :=
  match e with LockAcquire | LockRelease | Stop _ => true | _ => false end.

(** The two tuples [inspect_tasks] returns. *)
Definition timed_out (s : Pool) : list Task :=
  filter (fun t => has_timeout (clock s) t) (tasks_values s).

Definition cancelled_running (s : Pool) : list Task :=
  filter (fun t => started t && cancelled t) (tasks_values s).

(** ** Worker expirations *)

(** The tuple [expired] of [inspect_workers]. *)
Definition expired_workers (s : Pool) : list Worker :=
  filter (fun w => negb (is_alive w)) (workers_values s).

(** What the generator of [inspect_workers] yields. *)
Definition expirations (s : Pool) : list (Z * option Z) :=
  (fun w => (pid w, exitcode w)) <$> filter (fun w => abnormal w) (expired_workers s).

(** No two tasks of the table carry the same worker pid: a worker runs one
    task at a time. *)
Definition single_owner (s : Pool) : Prop :=
  NoDup (omap worker_of (tasks_values s)).

(** The system gives a new child a pid that no worker of the table has. *)
Definition fresh_pids (s : Pool) : Prop :=
  map_Forall (fun k _ => k < next_pid s) (workers s).

(** The workers of the table that still run. *)
Definition live_workers (s : Pool) : list Worker :=
  filter (fun w => is_alive w) (workers_values s).

Definition all_alive (s : Pool) : Prop :=
  map_Forall (fun _ w => is_alive w = true) (workers s).

Definition is_spawn (e : event) : bool :=
  match e with Spawn _ => true | _ => false end.

(** ** Counting over the event list *)

(** [NewTask] messages sent for the task numbered [n]. *)
Definition dispatches (n : Z) (e : event) : bool :=
  match e with
  | Send (NewTask id _) => bool_decide (id = n)
  | _ => false
  end.

Definition resolved (n : Z) (evs : list event) : nat :=
  length (filter (fun e => resolves n e) evs).

Definition dispatched (n : Z) (evs : list event) : nat :=
  length (filter (fun e => dispatches n e) evs).

(** 1 when the table has an entry under [n], else 0. *)
Definition present (n : Z) (s : Pool) : nat :=
  match tasks s !! n with Some _ => 1%nat | None => 0%nat end.

(** Events that neither resolve a task nor send a message. *)
Definition quiet (e : event) : bool :=
  match e with SetResults _ _ | Send _ => false | _ => true end.

(** A step that leaves the task table, the queue and the [alive] flag alone
    and adds quiet events only. *)
Definition quiet_step (s s' : Pool) : Prop :=
  tasks s' = tasks s /\ task_queue s' = task_queue s /\ alive s' = alive s /\
  exists ext, events s' = events s ++ ext /\ Forall (fun e => quiet e = true) ext.

(** Whatever way [m] ends, the pool it leaves is related by [R] to the one
    it found. *)
Definition respects (R : Pool -> Pool -> Prop) {A} (m : M A) : Prop :=
  forall s, R s (final (m s)).

(** Every element of a list stands right after a prefix that allows it. *)
Definition each_preceded {E} (ok : list E -> E -> Prop) (tr : list E) : Prop :=
  forall pre e post, tr = pre ++ e :: post -> ok pre e.

(** Between [s] and [s'] the calls of [set_results] on the task numbered
    [n], plus its entry in the table if it has one, grew by no more than
    the [NewTask] messages sent for it. *)
Definition once_step (n : Z) (s s' : Pool) : Prop :=
  tasks_keyed s ->
  tasks_keyed s' /\
  (resolved n (events s') + present n s' + dispatched n (events s)
   <= resolved n (events s) + present n s + dispatched n (events s'))%nat.

(** A [NewTask] for the task numbered [n] is sent right after the queue
    gave out a task with that number, that payload slot and no cancel flag. *)
Definition justified (n : Z) (pre : list event) (e : event) : Prop :=
  match e with
  | Send (NewTask id p) =>
      id = n ->
      exists pre' t, pre = pre' ++ [QueueGet (Some t)] /\
                     number t = n /\ _metadata t = p /\ cancelled t = false
  | _ => True
  end.

Definition silent (e : event) : bool :=
  match e with Send _ => false | _ => true end.

Definition dispatch_step (n : Z) (s s' : Pool) : Prop :=
  exists ext,
    events s' = events s ++ ext /\
    (each_preceded (justified n) (events s) -> each_preceded (justified n) (events s')) /\
    (tasks s !! n = None -> dispatched n ext = 0%nat -> tasks s' !! n = None).

(** [None] is on the queue only once the pool has been stopped. *)
Definition sentinel_ok (s : Pool) : Prop :=
  None ∈ task_queue s -> alive s = false.

Definition stop_step (s s' : Pool) : Prop :=
  (sentinel_ok s -> sentinel_ok s') /\ (alive s = false -> alive s' = false).

(** From [w] to [w'] the trace only grew, and if it followed the protocol
    it still does. *)
Definition keeps (getpid : Z) (w w' : World) : Prop :=
  (each_preceded (protocol getpid) (trace w) ->
   each_preceded (protocol getpid) (trace w')) /\
  exists ext, trace w' = trace w ++ ext.

(** The events of one task, from claim to results. *)
Definition claimed_round (getpid id : Z) (p : payload) (results : outcome) : list wevent :=
  [WAcquire; WRecv (NewTask id (MPayload p)); WSend (Acknowledgement getpid id);
   WRelease; WExecute p; WSend (Results id results)].

(** ** Sample pools *)

Definition sample_payload : payload := Payload "work" [1; 2] [].

(** A pool with no task and no worker, at time 100. *)
Definition empty_pool : Pool := mkPool true [] ∅ ∅ 1 101 100 [].

(** A task not yet claimed by a worker. *)
Definition fresh_task : Task := mkTask 1 (Some 5) false (MPayload sample_payload) 0.

(** A task claimed by worker 100 at time 10, with a timeout of 5, that its
    caller has cancelled. *)
Definition late_task : Task := mkTask 1 (Some 5) true (MWorker 100) 10.

Definition sample_worker : Worker := mkWorker 100 true None.

(** At time 100 [late_task] is both timed out and cancelled. *)
Definition late_pool : Pool :=
  mkPool true [] {[1 := late_task]} {[100 := sample_worker]} 1 101 100 [].

(** A caller submits [fresh_task] and cancels it before the scheduler, in
    its second turn, takes it from the queue. *)
Definition cancel_early : list action :=
  [Submit fresh_task; Cancel 1; SchedulerTurn; SchedulerTurn].

(** [fresh_task] is scheduled, claimed by worker 100 and completed; a second
    result for it arrives afterwards. *)
Definition complete_twice : list action :=
  [Submit fresh_task; SchedulerTurn; SchedulerTurn;
   MessageTurn (Acknowledgement 100 1);
   MessageTurn (Results 1 (Value 7));
   MessageTurn (Results 1 (Value 8))].

(** A channel on which one task waits and every call succeeds once or
    twice. *)
Definition one_task_world : World :=
  mkWorld [Returns true; Returns false] [Returns true]
          [Returns (NewTask 1 (MPayload sample_payload))]
          [Returns tt; Returns tt] [Value 7] [].

Definition plain_parameters : WorkerParameters := mkWorkerParameters None None 0.

(** The scheduler thread is inside [get] when [Pool.stop] is called. *)
Definition stop_while_waiting : list action := [SchedulerTurn; StopPool].

(** Worker 100 has died with exit code 7 while it owned [late_task];
    worker 101 is idle and runs; the pool is configured for two workers. *)
Definition dead_worker : Worker := mkWorker 100 false (Some 7).

Definition crashed_pool : Pool :=
  mkPool true [] {[1 := late_task]}
         {[100 := dead_worker; 101 := mkWorker 101 true None]} 2 102 12 [].

(** ** Further notions for the managers *)

(** The workers passed to [stop], in the order of the calls. *)
Definition stopped (evs : list event) : list Worker :=
  omap (fun e => match e with Stop w => Some w | _ => None end) evs.

(** Every task of the table and of the queue satisfies [P]. *)
Definition all_tasks (P : Task -> Prop) (s : Pool) : Prop :=
  map_Forall (fun _ t => P t) (tasks s) /\
  Forall (fun item => match item with Some t => P t | None => True end) (task_queue s).

Definition keeps_all (P : Task -> Prop) (s s' : Pool) : Prop :=
  all_tasks P s -> all_tasks P s'.

(** The tasks callers submit in a run all satisfy [P]. *)
Definition submits (P : Task -> Prop) (a : action) : Prop :=
  match a with Submit t => P t | _ => True end.

(** A task as a caller hands it in or as the pool leaves it: started only
    with a worker pid in [_metadata], and with a timeout that is a
    duration. *)
Definition sound_task (t : Task) : Prop := owned t /\ timeout_ok t.



(** The messages sent on the pool channel so far. *)
Definition sent (evs : list event) : nat :=
  length (filter (fun e => negb (silent e)) evs).

(** A scheduler thread inside [get] can still take one item. *)
Definition pending_get (pc : scheduler_pc) : nat :=
  match pc with AtGet => 1%nat | _ => 0%nat end.

(** A step that sends nothing and does not revive a stopped pool. *)
Definition mute_step (s s' : Pool) : Prop :=
  (alive s = false -> alive s' = false) /\ sent (events s') = sent (events s).

(** [PoolManager.start] and [PoolManager.stop]. *)
Definition PoolManager_start : M unit := create_workers.
Definition PoolManager_stop : M unit := stop_workers.


(** ** Counting what a worker did *)

Definition wcount (f : wevent -> bool) (tr : list wevent) : nat :=
  length (filter (fun e => f e) tr).

Definition is_execute (e : wevent) : bool :=
  match e with WExecute _ => true | _ => false end.

Definition is_results (e : wevent) : bool :=
  match e with WSend (Results _ _) => true | _ => false end.

Definition is_acquire (e : wevent) : bool :=
  match e with WAcquire => true | _ => false end.

Definition is_release (e : wevent) : bool :=
  match e with WRelease => true | _ => false end.

Definition executions : list wevent -> nat := wcount is_execute.
Definition results_sent : list wevent -> nat := wcount is_results.
Definition acquired : list wevent -> nat := wcount is_acquire.
Definition released : list wevent -> nat := wcount is_release.

(** From [w] to [w'] the lock was entered [d] times more than it was
    left. *)
Definition lock_delta (d : nat) (w w' : World) : Prop :=
  (acquired (trace w') + released (trace w) =
   d + released (trace w') + acquired (trace w))%nat.

(** A piece of the worker that stops at [r] has left the lock, unless it
    waits on a call, where it may hold it once. *)
Definition lock_left {A} (w : World) (r : wres A) : Prop :=
  match r with
  | Blocked w' => lock_delta 0 w w' \/ lock_delta 1 w w'
  | Done _ w' | Raised _ w' | Exited _ w' | OutOfFuel w' => lock_delta 0 w w'
  end.

Definition returned {A} (r : wres A) : bool :=
  match r with Done _ _ => true | _ => false end.

(** A worker that serves one task and then runs its deinitializer. *)
Definition limited_parameters : WorkerParameters :=
  mkWorkerParameters None (Some true) 1.

(** [Pool.stop] is called when the scheduler has passed the test of its
    loop but not yet taken the task that waits on the queue. *)
Definition stop_before_get : list action :=
  [Submit fresh_task; SchedulerTurn; StopPool].

(** * Properties *)

Lemma elem_of_tasks_values (s : Pool) (t : Task) :
  t ∈ tasks_values s <-> exists k, tasks s !! k = Some t.
Proof.
  unfold tasks_values. rewrite list_elem_of_fmap. split.
  - intros [[k t'] [-> Hin]]. exists k. by apply elem_of_map_to_list in Hin.
  - intros [k Hk]. exists (k, t). split; [done|]. by apply elem_of_map_to_list.
Qed.

Lemma elem_of_workers_values (s : Pool) (w : Worker) :
  w ∈ workers_values s <-> exists k, workers s !! k = Some w.
Proof.
  unfold workers_values. rewrite list_elem_of_fmap. split.
  - intros [[k w'] [-> Hin]]. exists k. by apply elem_of_map_to_list in Hin.
  - intros [k Hk]. exists (k, w). split; [done|]. by apply elem_of_map_to_list.
Qed.

Lemma tasks_keyed_lookup (s : Pool) (t : Task) :
  tasks_keyed s -> t ∈ tasks_values s -> tasks s !! number t = Some t.
Proof.
  intros Hk [k Ht]%elem_of_tasks_values.
  by rewrite (Hk k t Ht).
Qed.

Lemma tasks_values_NoDup (s : Pool) : tasks_keyed s -> NoDup (tasks_values s).
Proof.
  intros Hk. unfold tasks_values.
  apply (NoDup_fmap_1 number).
  rewrite <- list_fmap_compose.
  assert (Heq : (number ∘ snd) <$> map_to_list (tasks s) = (map_to_list (tasks s)).*1).
  { apply list_fmap_ext. intros i [k t] Hi. simpl.
    apply list_elem_of_lookup_2, elem_of_map_to_list in Hi. by apply Hk in Hi. }
  rewrite Heq. apply NoDup_fst_map_to_list.
Qed.

(** ** Dispatch *)

(** C1. [PoolManager.schedule] registers the task and has
    [WorkerManager.dispatch] send, on the pool channel, one [NewTask]
    message with the number of the task and its payload, which the task
    holds in its [_metadata] slot until a worker claims it. *)
Theorem schedule_sends_NewTask (s : Pool) (task : Task) (p : payload) :
  _metadata task = MPayload p ->
  exists s',
    schedule task s = Ok tt s' /\
    events s' = events s ++ [Send (NewTask (number task) (MPayload p))] /\
    tasks s' = <[number task := task]> (tasks s).
Proof.
  intros Hp. eexists. split; [reflexivity|].
  simpl. by rewrite Hp.
Qed.

Lemma schedule_sends_NewTask_witness :
  exists s',
    schedule fresh_task empty_pool = Ok tt s' /\
    events s' = [Send (NewTask 1 (MPayload sample_payload))] /\
    tasks s' = {[1 := fresh_task]}.
Proof.
  destruct (schedule_sends_NewTask empty_pool fresh_task sample_payload eq_refl)
    as (s' & Hrun & Hev & Ht).
  exists s'. split; [exact Hrun|]. split; [exact Hev|]. exact Ht.
Defined.

(** ** Task Manager *)

(** C2, amended. [task_start] with a [task_id] that is not in the table
    raises [KeyError] and leaves the pool as it was; with a [task_id] that is
    in the table it returns, and the task under that key then has
    [_metadata] equal to the pid and [_timestamp] equal to the clock, all
    else unchanged. *)
Theorem task_start_spec (s : Pool) (task_id worker_pid : Z) :
  match tasks s !! task_id with
  | None => task_start task_id worker_pid s = Raise KeyError s
  | Some task =>
      exists s',
        task_start task_id worker_pid s = Ok tt s' /\
        tasks s' = <[task_id :=
                      mkTask (number task) (timeout task) (cancelled task)
                             (MWorker worker_pid) (clock s)]> (tasks s) /\
        events s' = events s /\ workers s' = workers s
  end.
Proof.
  unfold task_start, bind, tasks_getitem.
  destruct (tasks s !! task_id) as [task|]; [|done].
  eexists. split; [reflexivity|]. done.
Qed.

(** C2 as first stated fails: an acknowledgement for a task that is not in
    the table makes [task_start], and [process_message] with it, raise
    [KeyError]. *)
Lemma task_start_absent_raises :
  tasks empty_pool !! 7 = None /\
  task_start 7 100 empty_pool = Raise KeyError empty_pool /\
  process_message (Acknowledgement 100 7) empty_pool = Raise KeyError empty_pool /\
  ~ exists s', task_start 7 100 empty_pool = Ok tt s'.
Proof.
  split; [reflexivity|]. split; [reflexivity|]. split; [reflexivity|].
  intros [s' H]. discriminate.
Qed.

(** What one call of [task_done] does. *)
Lemma task_done_spec (s : Pool) (task_id : Z) (results : outcome) :
  exists s',
    task_done task_id results s = Ok tt s' /\
    tasks s' = delete task_id (tasks s) /\
    workers s' = workers s /\
    match tasks s !! task_id with
    | Some task => events s' = events s ++ [SetResults task results; QueueTaskDone]
    | None => s' = s
    end.
Proof.
  unfold task_done, try_except_else, tasks_pop.
  destruct (tasks s !! task_id) as [task|] eqn:Ht.
  - eexists. split; [reflexivity|]. simpl. by rewrite <- app_assoc.
  - simpl. exists s. split; [done|]. split; [|done].
    by rewrite delete_id.
Qed.

Lemma has_timeout_true (now : Z) (t : Task) :
  timeout_ok t ->
  has_timeout now t = true <->
  started t = true /\ exists tm, timeout t = Some tm /\ 0 < tm /\ now - _timestamp t > tm.
Proof.
  unfold has_timeout, timeout_ok. intros Hok.
  destruct (timeout t) as [tm|];
    [|split; [done|intros (_ & tm & Hn & _); discriminate]].
  destruct (Z.eqb_spec tm 0) as [->|Hne]; simpl.
  - split; [done|]. intros (_ & tm & [= <-] & ? & _). lia.
  - destruct (started t); simpl.
    + rewrite bool_decide_eq_true. split.
      * intros ?. split; [done|]. exists tm. repeat split; [lia|done].
      * by intros (_ & tm' & [= <-] & _ & ?).
    + split; [done|]. by intros [? _].
Qed.

(** C6. [inspect_tasks] returns the pair of the timed-out tasks and the
    started-and-cancelled tasks of the table, leaving the pool as it is: a
    task is in the first list exactly when it is in the table, started, has a
    positive timeout and the clock is more than that timeout past its
    [_timestamp]; it is in the second exactly when it is in the table,
    started and cancelled; each list names a task once; a task that is not
    started is in neither. *)
Theorem inspect_tasks_spec (s : Pool) :
  tasks_keyed s -> timeouts_ok s ->
  inspect_tasks s = Ok (timed_out s, cancelled_running s) s /\
  (forall t, t ∈ timed_out s <->
     (exists k, tasks s !! k = Some t) /\ started t = true /\
     exists tm, timeout t = Some tm /\ 0 < tm /\ clock s - _timestamp t > tm) /\
  (forall t, t ∈ cancelled_running s <->
     (exists k, tasks s !! k = Some t) /\ started t = true /\ cancelled t = true) /\
  NoDup (timed_out s) /\ NoDup (cancelled_running s) /\
  (forall t, started t = false -> (t ∉ timed_out s) /\ (t ∉ cancelled_running s)).
Proof.
  intros Hk Hto. split; [reflexivity|].
  assert (Hin : forall t, t ∈ timed_out s <->
       (exists k, tasks s !! k = Some t) /\ started t = true /\
       exists tm, timeout t = Some tm /\ 0 < tm /\ clock s - _timestamp t > tm).
  { intros t. unfold timed_out.
    rewrite list_elem_of_filter, elem_of_tasks_values, Is_true_true.
    split.
    - intros [Hh [k Ht]]. split; [by exists k|].
      apply has_timeout_true; [|done]. by apply (Hto k).
    - intros [[k Ht] Hh]. split; [|by exists k].
      apply has_timeout_true; [|done]. by apply (Hto k). }
  assert (Hin2 : forall t, t ∈ cancelled_running s <->
       (exists k, tasks s !! k = Some t) /\ started t = true /\ cancelled t = true).
  { intros t. unfold cancelled_running.
    rewrite list_elem_of_filter, elem_of_tasks_values, Is_true_true,
      andb_true_iff. tauto. }
  split; [exact Hin|]. split; [exact Hin2|].
  split; [by apply NoDup_filter, tasks_values_NoDup|].
  split; [by apply NoDup_filter, tasks_values_NoDup|].
  intros t Hs. split.
  - intros [_ [Hs' _]]%Hin. congruence.
  - intros [_ [Hs' _]]%Hin2. congruence.
Qed.

Lemma inspect_tasks_spec_witness :
  tasks_keyed late_pool /\ timeouts_ok late_pool /\
  inspect_tasks late_pool = Ok ([late_task], [late_task]) late_pool.
Proof.
  assert (Hk : tasks_keyed late_pool)
    by (apply (bool_decide_unpack _); vm_compute; exact I).
  assert (Hto : timeouts_ok late_pool)
    by (apply (bool_decide_unpack _); vm_compute; exact I).
  split; [exact Hk|]. split; [exact Hto|].
  destruct (inspect_tasks_spec late_pool Hk Hto) as (Hrun & _).
  rewrite Hrun. vm_compute. reflexivity.
Defined.

(** ** Status turns: timeouts and cancellations *)

Lemma for_each_task_done (l : list Task) (o : outcome) (s : Pool) :
  for_each l (fun task => task_done (number task) o) s =
  Ok tt (mkPool (alive s) (task_queue s) (remove_tasks l (tasks s)) (workers s)
           (workers_number s) (next_pid s) (clock s)
           (events s ++ resolve_events (tasks s) l o)).
Proof.
  revert s. induction l as [|t l IH]; intros s.
  - simpl. unfold ret. destruct s; simpl. by rewrite app_nil_r.
  - simpl. unfold bind at 1. unfold task_done, try_except_else, tasks_pop.
    destruct (tasks s !! number t) as [t'|] eqn:Ht; simpl.
    + rewrite IH. simpl. do 2 f_equal.
      rewrite <- !app_assoc. done.
    + rewrite IH. unfold remove_tasks. simpl. by rewrite (delete_id _ _ Ht).
Qed.

Lemma remove_tasks_lookup (l : list Task) (m : gmap Z Task) (k : Z) :
  remove_tasks l m !! k = if decide (k ∈ number <$> l) then None else m !! k.
Proof.
  revert m. induction l as [|t l IH]; intros m.
  - simpl. destruct (decide (k ∈ number <$> [])) as [H|]; [|done].
    by apply elem_of_nil in H.
  - unfold remove_tasks in *. simpl foldl. rewrite IH.
    destruct (decide (k ∈ number <$> l)) as [Hin|Hnin];
      destruct (decide (k ∈ number <$> t :: l)) as [Hin'|Hnin']; try done.
    + exfalso. apply Hnin'. rewrite fmap_cons. by apply list_elem_of_further.
    + rewrite fmap_cons in Hin'. apply elem_of_cons in Hin' as [->|?]; [|done].
      apply lookup_delete_eq.
    + rewrite lookup_delete_ne; [done|]. intros <-. apply Hnin'.
      rewrite fmap_cons. apply list_elem_of_here.
Qed.

Lemma remove_workers_lookup (pids : list Z) (ws : gmap Z Worker) (k : Z) :
  remove_workers pids ws !! k = if decide (k ∈ pids) then None else ws !! k.
Proof.
  revert ws. induction pids as [|p pids IH]; intros ws.
  - simpl. destruct (decide (k ∈ [])) as [H|]; [|done].
    by apply elem_of_nil in H.
  - unfold remove_workers in *. simpl foldl. rewrite IH.
    destruct (decide (k ∈ pids)) as [Hin|Hnin];
      destruct (decide (k ∈ p :: pids)) as [Hin'|Hnin']; try done.
    + exfalso. apply Hnin'. by apply list_elem_of_further.
    + apply elem_of_cons in Hin' as [->|?]; [|done].
      apply lookup_delete_eq.
    + rewrite lookup_delete_ne; [done|]. intros <-. apply Hnin'.
      apply list_elem_of_here.
Qed.

(** Tasks that are all in the table, each once, are all resolved. *)
Lemma resolve_events_present (m : gmap Z Task) (l : list Task) (o : outcome) :
  NoDup (number <$> l) ->
  (forall t, t ∈ l -> m !! number t = Some t) ->
  resolve_events m l o = flat_map (fun t => [SetResults t o; QueueTaskDone]) l.
Proof.
  revert m. induction l as [|t l IH]; intros m Hnd Hin; [done|].
  simpl. rewrite (Hin t) by apply list_elem_of_here. simpl.
  do 2 f_equal. apply NoDup_cons in Hnd as [Hnt Hnd].
  apply IH; [done|]. intros t' Ht'.
  rewrite lookup_delete_ne.
  - apply Hin. by apply list_elem_of_further.
  - intros Heq. apply Hnt. rewrite Heq. by apply list_elem_of_fmap_2.
Qed.

(** Of tasks with distinct numbers, those still in the table are resolved
    and those that have left it are passed over. *)
Lemma resolve_events_partial (P : Task -> bool) (m : gmap Z Task) (l : list Task)
    (o : outcome) :
  NoDup (number <$> l) ->
  (forall t, t ∈ l -> m !! number t = if P t then Some t else None) ->
  resolve_events m l o =
  flat_map (fun t => [SetResults t o; QueueTaskDone]) (filter (fun t => P t) l).
Proof.
  revert m. induction l as [|t l IH]; intros m Hnd Hin; [done|].
  apply NoDup_cons in Hnd as [Hnt Hnd].
  simpl. rewrite (Hin t) by apply list_elem_of_here. rewrite filter_cons.
  destruct (P t) eqn:HP; simpl.
  - do 2 f_equal. apply IH; [done|]. intros t' Ht'.
    rewrite lookup_delete_ne.
    + apply Hin. by apply list_elem_of_further.
    + intros Heq. apply Hnt. rewrite Heq. by apply list_elem_of_fmap_2.
  - apply IH; [done|]. intros t' Ht'. apply Hin. by apply list_elem_of_further.
Qed.

Lemma resolve_events_resolution (m : gmap Z Task) (l : list Task) (o : outcome) :
  Forall (fun e => is_resolution e = true) (resolve_events m l o).
Proof.
  revert m. induction l as [|t l IH]; intros m; simpl; [constructor|].
  destruct (m !! number t); [|apply IH].
  repeat constructor. apply IH.
Qed.

Lemma for_each_stop_worker (pids : list Z) (s : Pool) :
  for_each (MWorker <$> pids) stop_worker s =
  Ok tt (mkPool (alive s) (task_queue s) (tasks s) (remove_workers pids (workers s))
           (workers_number s) (next_pid s) (clock s)
           (events s ++ stop_events (workers s) pids)).
Proof.
  revert s. induction pids as [|p pids IH]; intros s.
  - simpl. unfold ret. destruct s; simpl. by rewrite app_nil_r.
  - simpl. unfold bind at 1.
    unfold stop_worker, try_except_else, with_lock, bind, workers_pop_key, workers_pop.
    simpl. destruct (workers s !! p) as [w|] eqn:Hw; simpl.
    + rewrite IH. simpl. do 2 f_equal. by rewrite <- !app_assoc.
    + rewrite IH. simpl. unfold remove_workers. simpl.
      rewrite (delete_id _ _ Hw). do 2 f_equal. by rewrite <- !app_assoc.
Qed.

Lemma stop_events_stop (ws : gmap Z Worker) (pids : list Z) :
  Forall (fun e => is_stop e = true) (stop_events ws pids).
Proof.
  revert ws. induction pids as [|p pids IH]; intros ws; simpl; [constructor|].
  destruct (ws !! p); repeat constructor; apply IH.
Qed.

Lemma stop_events_Stop (ws : gmap Z Worker) (pids : list Z) (p : Z) (w : Worker) :
  p ∈ pids -> ws !! p = Some w -> Stop w ∈ stop_events ws pids.
Proof.
  revert ws. induction pids as [|p' pids IH]; intros ws Hin Hw.
  - by apply elem_of_nil in Hin.
  - simpl. destruct (decide (p' = p)) as [->|Hne].
    + rewrite Hw. apply list_elem_of_further, list_elem_of_here.
    + apply elem_of_cons in Hin as [->|Hin]; [done|].
      destruct (ws !! p') as [w'|].
      * do 3 apply list_elem_of_further. apply IH; [done|].
        by rewrite lookup_delete_ne.
      * do 2 apply list_elem_of_further. by apply IH.
Qed.

Lemma has_timeout_started (now : Z) (t : Task) :
  has_timeout now t = true -> started t = true.
Proof.
  unfold has_timeout. destruct (timeout t) as [tm|]; [|done].
  destruct (negb (tm =? 0)); simpl; [|done].
  by destruct (started t).
Qed.

Lemma worker_of_Some (t : Task) (p : Z) :
  worker_of t = Some p <-> _metadata t = MWorker p.
Proof. unfold worker_of. destruct (_metadata t); split; congruence. Qed.

Lemma metadata_of_owned (l : list Task) :
  (forall t, t ∈ l -> is_Some (worker_of t)) ->
  _metadata <$> l = MWorker <$> omap worker_of l.
Proof.
  induction l as [|t l IH]; intros Hl; [done|].
  destruct (Hl t) as [p Hp]; [apply list_elem_of_here|].
  simpl. rewrite Hp. apply worker_of_Some in Hp. rewrite Hp. simpl. f_equal.
  apply IH. intros t' Ht'. apply Hl. by apply list_elem_of_further.
Qed.

(** What a call of [update_tasks] leaves behind, in full. *)
Lemma update_tasks_run (s : Pool) :
  started_owned s ->
  update_tasks s =
  Ok tt (mkPool (alive s) (task_queue s)
           (remove_tasks (timed_out s ++ cancelled_running s) (tasks s))
           (remove_workers (omap worker_of (timed_out s ++ cancelled_running s)) (workers s))
           (workers_number s) (next_pid s) (clock s)
           (events s
              ++ resolve_events (tasks s) (timed_out s) (TimeoutError "Timeout")
              ++ resolve_events (remove_tasks (timed_out s) (tasks s))
                   (cancelled_running s) (TaskCancelled "Cancelled")
              ++ stop_events (workers s)
                   (omap worker_of (timed_out s ++ cancelled_running s)))).
Proof.
  intros Hown. unfold update_tasks, bind at 1, inspect_tasks. simpl.
  fold (timed_out s). fold (cancelled_running s).
  unfold bind at 1. rewrite for_each_task_done. simpl.
  unfold bind at 1. rewrite for_each_task_done. simpl.
  rewrite metadata_of_owned.
  - rewrite for_each_stop_worker. simpl. unfold remove_tasks.
    rewrite foldl_app. by rewrite <- !app_assoc.
  - intros t Ht.
    assert (Hin : t ∈ tasks_values s /\ started t = true).
    { apply elem_of_app in Ht as [Ht|Ht]; unfold timed_out, cancelled_running in Ht;
        apply list_elem_of_filter in Ht as [HP Hin]; (split; [done|]);
        apply Is_true_true in HP.
      - by apply has_timeout_started in HP.
      - by apply andb_true_iff in HP as [? _]. }
    destruct Hin as [[k Hk]%elem_of_tasks_values Hst].
    by apply (Hown k t Hk).
Qed.

Lemma filter_none {A} (P : A -> Prop) `{forall x, Decision (P x)} (l : list A) :
  Forall (fun x => ~ P x) l -> filter P l = [].
Proof.
  induction 1 as [|x l Hx Hl IH]; [done|].
  rewrite filter_cons. by rewrite decide_False.
Qed.

Lemma tasks_values_number_inj (s : Pool) (t t' : Task) :
  tasks_keyed s -> t ∈ tasks_values s -> t' ∈ tasks_values s ->
  number t = number t' -> t = t'.
Proof.
  intros Hk Ht Ht' Heq.
  apply (tasks_keyed_lookup s t Hk) in Ht.
  apply (tasks_keyed_lookup s t' Hk) in Ht'.
  rewrite Heq in Ht. congruence.
Qed.

Lemma filter_values_numbers_NoDup (P : Task -> bool) (s : Pool) :
  tasks_keyed s -> NoDup (number <$> filter (fun t => P t) (tasks_values s)).
Proof.
  intros Hk. apply NoDup_fmap_2_strong.
  - intros t t' [_ Ht]%list_elem_of_filter [_ Ht']%list_elem_of_filter.
    by apply (tasks_values_number_inj s).
  - by apply NoDup_filter, tasks_values_NoDup.
Qed.

Lemma timed_out_events (s : Pool) (o : outcome) :
  tasks_keyed s ->
  resolve_events (tasks s) (timed_out s) o =
  flat_map (fun t => [SetResults t o; QueueTaskDone]) (timed_out s).
Proof.
  intros Hk. apply resolve_events_present.
  - by apply filter_values_numbers_NoDup.
  - intros t [_ Ht]%list_elem_of_filter. by apply tasks_keyed_lookup.
Qed.

Lemma cancelled_running_events (s : Pool) (o : outcome) :
  tasks_keyed s ->
  resolve_events (remove_tasks (timed_out s) (tasks s)) (cancelled_running s) o =
  flat_map (fun t => [SetResults t o; QueueTaskDone])
           (filter (fun t => negb (has_timeout (clock s) t)) (cancelled_running s)).
Proof.
  intros Hk. apply resolve_events_partial.
  - by apply filter_values_numbers_NoDup.
  - intros t [_ Ht]%list_elem_of_filter. rewrite remove_tasks_lookup.
    destruct (has_timeout (clock s) t) eqn:Hto; simpl.
    + rewrite decide_True; [done|]. apply list_elem_of_fmap_2.
      apply list_elem_of_filter. split; [by apply Is_true_true|done].
    + rewrite decide_False; [by apply tasks_keyed_lookup|].
      intros (t' & Heq & [Hto' Ht']%list_elem_of_filter)%list_elem_of_fmap.
      apply Is_true_true in Hto'.
      assert (t = t') by (by apply (tasks_values_number_inj s)).
      congruence.
Qed.

Lemma elem_of_resolutions (l : list Task) (o o' : outcome) (t : Task) :
  SetResults t o' ∈ flat_map (fun t => [SetResults t o; QueueTaskDone]) l <->
  t ∈ l /\ o' = o.
Proof.
  rewrite list_elem_of_In, in_flat_map. split.
  - intros (t' & Hin & [Heq|[Heq|[]]]); [|discriminate].
    injection Heq as -> ->. by apply list_elem_of_In in Hin.
  - intros [Hin ->]. exists t. split; [by apply list_elem_of_In|by left].
Qed.

Lemma filter_resolves_resolutions (n : Z) (l : list Task) (o : outcome) :
  filter (fun e => resolves n e) (flat_map (fun t => [SetResults t o; QueueTaskDone]) l) =
  (fun t => SetResults t o) <$> filter (fun t => number t = n) l.
Proof.
  induction l as [|t l IH]; [done|].
  simpl. rewrite !filter_cons. simpl. rewrite IH.
  destruct (decide (number t = n)) as [Heq|Hne].
  - rewrite decide_True by (by apply Is_true_true, bool_decide_eq_true).
    done.
  - rewrite decide_False; [done|].
    by intros ?%Is_true_true%bool_decide_eq_true.
Qed.

Lemma filter_number_unique (l : list Task) (t : Task) :
  NoDup (number <$> l) -> t ∈ l -> filter (fun t' => number t' = number t) l = [t].
Proof.
  induction l as [|x l IH]; intros Hnd Hin; [by apply elem_of_nil in Hin|].
  apply NoDup_cons in Hnd as [Hx Hnd]. rewrite filter_cons.
  apply elem_of_cons in Hin as [->|Hin].
  - rewrite decide_True by done. f_equal.
    apply filter_none, Forall_forall. intros t' Ht' Heq.
    apply Hx. rewrite <- Heq. by apply list_elem_of_fmap_2.
  - rewrite decide_False; [by apply IH|].
    intros Heq. apply Hx. rewrite Heq. by apply list_elem_of_fmap_2.
Qed.

Lemma filter_number_absent (l : list Task) (n : Z) :
  n ∉ number <$> l -> filter (fun t' => number t' = n) l = [].
Proof.
  intros Hn. apply filter_none, Forall_forall. intros t' Ht' Heq.
  apply Hn. rewrite <- Heq. by apply list_elem_of_fmap_2.
Qed.

Lemma filter_resolves_stops (n : Z) (l : list event) :
  Forall (fun e => is_stop e = true) l -> filter (fun e => resolves n e) l = [].
Proof.
  intros Hl. apply filter_none. eapply Forall_impl; [exact Hl|].
  intros [] He; simpl in *; try discriminate; by intros [].
Qed.

Lemma elem_of_cancelled_only (s : Pool) (t : Task) :
  t ∈ filter (fun t => negb (has_timeout (clock s) t)) (cancelled_running s) <->
  t ∈ cancelled_running s /\ t ∉ timed_out s.
Proof.
  rewrite list_elem_of_filter. unfold timed_out.
  rewrite list_elem_of_filter. split.
  - intros [Hn Hc]. split; [done|]. intros [Hto _].
    destruct (has_timeout (clock s) t); simpl in *; done.
  - intros [Hc Hn]. split; [|done].
    destruct (has_timeout (clock s) t) eqn:Hto; simpl; [|done].
    apply Hn. split; [done|].
    unfold cancelled_running in Hc. by apply list_elem_of_filter in Hc as [_ ?].
Qed.

(** C5, amended. [update_tasks] returns, and the events it adds are first
    the resolutions and then the stops.  [set_results] is called with
    [TimeoutError] on every timed-out task, with [TaskCancelled] on every
    started-and-cancelled task that is not also timed out, and on nothing
    else; all these tasks leave the table.  Then every worker whose pid is in
    the [_metadata] of such a task is taken out of the worker table and, when
    it was there, passed to [stop]. *)
Theorem update_tasks_resolves_then_stops (s : Pool) :
  tasks_keyed s -> started_owned s ->
  exists s' resolutions stops,
    update_tasks s = Ok tt s' /\
    events s' = events s ++ resolutions ++ stops /\
    Forall (fun e => is_resolution e = true) resolutions /\
    Forall (fun e => is_stop e = true) stops /\
    (forall t o, SetResults t o ∈ resolutions <->
       (t ∈ timed_out s /\ o = TimeoutError "Timeout") \/
       (t ∈ cancelled_running s /\ (t ∉ timed_out s) /\ o = TaskCancelled "Cancelled")) /\
    (forall t, t ∈ timed_out s ++ cancelled_running s -> tasks s' !! number t = None) /\
    (forall t p, t ∈ timed_out s ++ cancelled_running s -> _metadata t = MWorker p ->
       workers s' !! p = None /\
       forall w, workers s !! p = Some w -> Stop w ∈ stops).
Proof.
  intros Hk Hown. rewrite (update_tasks_run s Hown).
  eexists _, _, _. split; [reflexivity|]. simpl.
  split; [by rewrite <- app_assoc|].
  split; [apply Forall_app; split; apply resolve_events_resolution|].
  split; [apply stop_events_stop|].
  split; [|split].
  - intros t o. rewrite (timed_out_events s _ Hk), (cancelled_running_events s _ Hk).
    rewrite elem_of_app, !elem_of_resolutions, elem_of_cancelled_only. tauto.
  - intros t Ht. rewrite remove_tasks_lookup.
    rewrite decide_True; [done|]. by apply list_elem_of_fmap_2.
  - intros t p Ht Hp.
    assert (Hin : p ∈ omap worker_of (timed_out s ++ cancelled_running s)).
    { apply list_elem_of_omap. exists t. split; [done|]. by apply worker_of_Some. }
    split.
    + rewrite remove_workers_lookup. by rewrite decide_True.
    + intros w Hw. by apply stop_events_Stop with p.
Qed.

Lemma update_tasks_resolves_then_stops_witness :
  tasks_keyed late_pool /\ started_owned late_pool /\
  exists s', update_tasks late_pool = Ok tt s' /\ tasks s' !! 1 = None.
Proof.
  assert (Hk : tasks_keyed late_pool)
    by (apply (bool_decide_unpack _); vm_compute; exact I).
  assert (Hown : started_owned late_pool)
    by (apply (bool_decide_unpack _); vm_compute; exact I).
  split; [exact Hk|]. split; [exact Hown|].
  destruct (update_tasks_resolves_then_stops late_pool Hk Hown)
    as (s' & resolved & stops & Hrun & _ & _ & _ & _ & Hgone & _).
  exists s'. split; [exact Hrun|].
  apply (Hgone late_task). vm_compute. left.
Defined.

(** C5 as first stated fails on a task that is timed out and cancelled at
    once: it is in the cancelled list, yet [set_results] is never called on
    it with [TaskCancelled]. *)
Lemma update_tasks_cancelled_unresolved :
  late_task ∈ cancelled_running late_pool /\
  exists s',
    update_tasks late_pool = Ok tt s' /\
    events s' = [SetResults late_task (TimeoutError "Timeout"); QueueTaskDone;
                 LockAcquire; Stop sample_worker; LockRelease;
                 LockAcquire; LockRelease] /\
    SetResults late_task (TaskCancelled "Cancelled") ∉ events s'.
Proof.
  split; [vm_compute; left|].
  eexists. split; [vm_compute; reflexivity|].
  split; [reflexivity|].
  simpl. intros Hin. repeat (apply elem_of_cons in Hin as [Hin|Hin]; [discriminate|]).
  by apply elem_of_nil in Hin.
Qed.

(** C10. A task that is timed out and started-and-cancelled at the same
    status turn is resolved by [update_tasks] with [TimeoutError] and with
    nothing else: the loop over the timed-out tasks runs first and takes the
    task out of the table, so that the [task_done] of the second loop finds
    no such key and returns without a call; among the events of the turn
    there is one [set_results] on this task, in the first part, with
    [TimeoutError]. *)
Theorem timeout_wins_over_cancel (s : Pool) (t : Task) :
  tasks_keyed s -> started_owned s ->
  t ∈ timed_out s -> t ∈ cancelled_running s ->
  exists s1 s' first second stops,
    for_each (timed_out s)
      (fun task => task_done (number task) (TimeoutError "Timeout")) s = Ok tt s1 /\
    events s1 = events s ++ first /\
    tasks s1 !! number t = None /\
    task_done (number t) (TaskCancelled "Cancelled") s1 = Ok tt s1 /\
    update_tasks s = Ok tt s' /\
    events s' = events s ++ first ++ second ++ stops /\
    filter (fun e => resolves (number t) e) (first ++ second ++ stops) =
      [SetResults t (TimeoutError "Timeout")] /\
    SetResults t (TimeoutError "Timeout") ∈ first /\
    (forall t' o, SetResults t' o ∈ first -> o = TimeoutError "Timeout") /\
    (forall t' o, SetResults t' o ∈ second -> o = TaskCancelled "Cancelled") /\
    (forall t' o, SetResults t' o ∉ stops) /\
    tasks s' !! number t = None.
Proof.
  intros Hk Hown Hto Hc.
  assert (Hgone : remove_tasks (timed_out s) (tasks s) !! number t = None).
  { rewrite remove_tasks_lookup. rewrite decide_True; [done|].
    by apply list_elem_of_fmap_2. }
  eexists _, _, _, _, _.
  split; [apply for_each_task_done|]. simpl.
  split; [reflexivity|]. split; [exact Hgone|].
  split.
  { unfold task_done, try_except_else, tasks_pop. simpl. by rewrite Hgone. }
  split; [apply (update_tasks_run s Hown)|]. simpl.
  split; [reflexivity|].
  rewrite (timed_out_events s _ Hk), (cancelled_running_events s _ Hk).
  split; [|split; [|split; [|split; [|split]]]].
  - rewrite !filter_app, !filter_resolves_resolutions.
    rewrite (filter_resolves_stops _ _ (stop_events_stop _ _)).
    rewrite filter_number_unique; [|by apply filter_values_numbers_NoDup|done].
    rewrite filter_number_absent; [done|].
    intros (t' & Heq & [Ht' Hnot]%elem_of_cancelled_only)%list_elem_of_fmap.
    apply Hnot.
    assert (t = t'); [|by subst].
    apply (tasks_values_number_inj s); [done| | |done].
    + unfold timed_out in Hto. by apply list_elem_of_filter in Hto as [_ ?].
    + unfold cancelled_running in Ht'. by apply list_elem_of_filter in Ht' as [_ ?].
  - by apply elem_of_resolutions.
  - by intros t' o [_ ->]%elem_of_resolutions.
  - by intros t' o [_ ->]%elem_of_resolutions.
  - intros t' o Hin.
    pose proof (stop_events_stop (workers s)
      (omap worker_of (timed_out s ++ cancelled_running s))) as Hst.
    rewrite Forall_forall in Hst. by apply Hst in Hin.
  - rewrite remove_tasks_lookup. rewrite decide_True; [done|].
    apply list_elem_of_fmap_2, elem_of_app. by left.
Qed.

Lemma timeout_wins_over_cancel_witness :
  tasks_keyed late_pool /\ started_owned late_pool /\
  late_task ∈ timed_out late_pool /\ late_task ∈ cancelled_running late_pool /\
  exists s', update_tasks late_pool = Ok tt s' /\
    filter (fun e => resolves 1 e) (events s') = [SetResults late_task (TimeoutError "Timeout")].
Proof.
  assert (Hk : tasks_keyed late_pool)
    by (apply (bool_decide_unpack _); vm_compute; exact I).
  assert (Hown : started_owned late_pool)
    by (apply (bool_decide_unpack _); vm_compute; exact I).
  assert (Hto : late_task ∈ timed_out late_pool) by (vm_compute; left).
  assert (Hc : late_task ∈ cancelled_running late_pool) by (vm_compute; left).
  repeat (split; [assumption|]).
  destruct (timeout_wins_over_cancel late_pool late_task Hk Hown Hto Hc)
    as (s1 & s' & first & second & stops & _ & _ & _ & _ & Hrun & Hev & Hf & _).
  exists s'. split; [exact Hrun|].
  rewrite Hev. exact Hf.
Defined.

(** ** Relations kept by every step of the coordinator *)

Lemma each_preceded_nil {E} (ok : list E -> E -> Prop) : each_preceded ok [].
Proof. intros pre e post H. by destruct pre. Qed.

Lemma each_preceded_snoc {E} (ok : list E -> E -> Prop) (tr : list E) (e : E) :
  each_preceded ok tr -> ok tr e -> each_preceded ok (tr ++ [e]).
Proof.
  intros Htr He pre e' post Heq.
  destruct post as [|x post _] using rev_ind.
  - apply app_inj_tail in Heq as [-> ->]. exact He.
  - rewrite app_comm_cons, app_assoc in Heq.
    apply app_inj_tail in Heq as [-> _]. by apply (Htr pre e' post).
Qed.

Section Respects.
Variable R : Pool -> Pool -> Prop.
Hypothesis R_refl : forall s, R s s.
Hypothesis R_trans : forall s1 s2 s3, R s1 s2 -> R s2 s3 -> R s1 s3.
Hypothesis R_emit : forall e s, quiet e = true -> R s (add_event e s).

Lemma respects_ret {A} (a : A) : respects R (ret a).
Proof. intros s. apply R_refl. Qed.

Lemma respects_raise {A} (e : exn) : respects R (@raise A e).
Proof. intros s. apply R_refl. Qed.

Lemma respects_bind {A B} (m : M A) (f : A -> M B) :
  respects R m -> (forall a, respects R (f a)) -> respects R (bind m f).
Proof.
  intros Hm Hf s. unfold bind. specialize (Hm s).
  destruct (m s) as [a s'|e s']; simpl in *; [|done].
  eapply R_trans; [exact Hm|apply Hf].
Qed.

Lemma respects_try_except_else {A B} (body : M A) (e : exn)
    (handler : M B) (rest : A -> M B) :
  respects R body -> respects R handler -> (forall a, respects R (rest a)) ->
  respects R (try_except_else body e handler rest).
Proof.
  intros Hb Hh Hr s. unfold try_except_else. specialize (Hb s).
  destruct (body s) as [a s'|e' s']; simpl in *.
  - eapply R_trans; [exact Hb|apply Hr].
  - destruct (decide (e' = e)); [|done].
    eapply R_trans; [exact Hb|apply Hh].
Qed.

Lemma respects_for_each {A} (l : list A) (body : A -> M unit) :
  (forall x, respects R (body x)) -> respects R (for_each l body).
Proof.
  intros Hb. induction l as [|x l IH]; simpl.
  - apply respects_ret.
  - apply respects_bind; [apply Hb|]. intros _. exact IH.
Qed.

Lemma respects_emit (e : event) : quiet e = true -> respects R (emit e).
Proof. intros He s. by apply R_emit. Qed.

Lemma respects_with_lock {A} (body : M A) :
  respects R body -> respects R (with_lock body).
Proof.
  intros Hb s. unfold with_lock.
  specialize (Hb (add_event LockAcquire s)).
  assert (H1 : R s (add_event LockAcquire s)) by (by apply R_emit).
  destruct (body (add_event LockAcquire s)) as [a s'|e s']; simpl in *;
    (eapply R_trans; [exact H1|]); (eapply R_trans; [exact Hb|]);
    by apply R_emit.
Qed.
End Respects.

Lemma quiet_step_refl (s : Pool) : quiet_step s s.
Proof. repeat (split; [done|]). exists []. by rewrite app_nil_r. Qed.

Lemma quiet_step_trans (s1 s2 s3 : Pool) :
  quiet_step s1 s2 -> quiet_step s2 s3 -> quiet_step s1 s3.
Proof.
  intros (Ht1 & Hq1' & Ha1 & e1 & He1 & Hq1) (Ht2 & Hq2' & Ha2 & e2 & He2 & Hq2).
  repeat (split; [congruence|]). exists (e1 ++ e2). split.
  - by rewrite He2, He1, <- app_assoc.
  - by apply Forall_app.
Qed.

Lemma quiet_step_emit (e : event) (s : Pool) :
  quiet e = true -> quiet_step s (add_event e s).
Proof.
  intros He. repeat (split; [done|]). exists [e]. split; [done|]. by constructor.
Qed.

(** A step that only touches the worker table, the next pid or the clock. *)
Lemma quiet_step_frame (s s' : Pool) :
  tasks s' = tasks s -> task_queue s' = task_queue s -> alive s' = alive s ->
  events s' = events s -> quiet_step s s'.
Proof. intros Ht Hq Ha He. repeat (split; [done|]). exists []. by rewrite app_nil_r. Qed.

Lemma stop_worker_quiet (worker_id : metadata) : respects quiet_step (stop_worker worker_id).
Proof.
  unfold stop_worker.
  apply respects_try_except_else;
    try (intros; apply respects_ret; apply quiet_step_refl);
    try apply quiet_step_trans.
  apply respects_with_lock; try apply quiet_step_trans; try apply quiet_step_emit.
  apply respects_bind; try apply quiet_step_trans.
  - destruct worker_id as [p|p]; simpl.
    + apply respects_raise, quiet_step_refl.
    + intros s. unfold workers_pop.
      destruct (workers s !! p); simpl; by apply quiet_step_frame.
  - intros w. by apply respects_emit; [apply quiet_step_emit|].
Qed.

Lemma inspect_workers_quiet : respects quiet_step inspect_workers.
Proof.
  intros s. unfold inspect_workers.
  apply respects_bind; try apply quiet_step_trans.
  - apply respects_for_each; try apply quiet_step_trans; try apply quiet_step_refl.
    intros w. apply respects_bind; try apply quiet_step_trans.
    + intros s0. unfold workers_pop.
      destruct (workers s0 !! pid w); simpl; by apply quiet_step_frame.
    + intros _. apply respects_ret, quiet_step_refl.
  - intros _. apply respects_ret, quiet_step_refl.
Qed.

Lemma new_worker_quiet : respects quiet_step new_worker.
Proof.
  intros s. simpl. repeat (split; [done|]). eexists [_]. split; [done|]. by constructor.
Qed.

Lemma create_workers_quiet : respects quiet_step create_workers.
Proof.
  intros s. unfold create_workers.
  apply respects_for_each; try apply quiet_step_trans; try apply quiet_step_refl.
  intros _. apply new_worker_quiet.
Qed.

Lemma stop_workers_quiet : respects quiet_step stop_workers.
Proof.
  intros s. unfold stop_workers.
  apply respects_for_each; try apply quiet_step_trans; try apply quiet_step_refl.
  intros p. apply stop_worker_quiet.
Qed.

Section Coordinator.
Variable R : Pool -> Pool -> Prop.
Hypothesis R_trans : forall s1 s2 s3, R s1 s2 -> R s2 s3 -> R s1 s3.
Hypothesis R_quiet : forall s s', quiet_step s s' -> R s s'.
Hypothesis R_task_done : forall task_id results, respects R (task_done task_id results).
Hypothesis R_task_start : forall task_id worker_id, respects R (task_start task_id worker_id).

Lemma R_refl (s : Pool) : R s s.
Proof. apply R_quiet, quiet_step_refl. Qed.

Lemma R_emit (e : event) (s : Pool) : quiet e = true -> R s (add_event e s).
Proof. intros He. by apply R_quiet, quiet_step_emit. Qed.

Lemma respects_quiet {A} (m : M A) : respects quiet_step m -> respects R m.
Proof. intros Hm s. apply R_quiet, Hm. Qed.

Lemma process_message_respects (m : message) : respects R (process_message m).
Proof.
  destruct m; simpl; try (apply respects_ret, R_refl).
  - apply R_task_done.
  - apply R_task_start.
Qed.

Lemma update_tasks_respects : respects R update_tasks.
Proof.
  unfold update_tasks.
  apply respects_bind; [exact R_trans| |].
  { intros s. simpl. apply R_refl. }
  intros tc. apply respects_bind; [exact R_trans| |].
  { apply respects_for_each; [exact R_refl|exact R_trans|]. intros t. apply R_task_done. }
  intros _. apply respects_bind; [exact R_trans| |].
  { apply respects_for_each; [exact R_refl|exact R_trans|]. intros t. apply R_task_done. }
  intros _. apply respects_for_each; [exact R_refl|exact R_trans|].
  intros md. apply respects_quiet, stop_worker_quiet.
Qed.

Lemma handle_worker_expiration_respects (expiration : Z * option Z) :
  respects R (handle_worker_expiration expiration).
Proof.
  destruct expiration as [worker_id code]. simpl.
  apply respects_try_except_else; [exact R_trans| | |].
  - intros s. unfold worker_id_lookup.
    destruct (list_find _ _) as [[? ?]|]; simpl; apply R_refl.
  - apply respects_ret, R_refl.
  - intros t. apply R_task_done.
Qed.

Lemma update_workers_respects : respects R update_workers.
Proof.
  unfold update_workers.
  apply respects_bind; [exact R_trans| |].
  { apply respects_quiet, inspect_workers_quiet. }
  intros exps. apply respects_bind; [exact R_trans| |].
  { apply respects_for_each; [exact R_refl|exact R_trans|].
    apply handle_worker_expiration_respects. }
  intros _. apply respects_quiet, create_workers_quiet.
Qed.

Lemma update_status_respects : respects R update_status.
Proof.
  unfold update_status. apply respects_bind; [exact R_trans| |].
  - apply update_tasks_respects.
  - intros _. apply update_workers_respects.
Qed.

(** The turns of the callers and of the scheduler act on the queue and the
    [alive] flag; each relation has its own reason to survive them. *)
Hypothesis R_submit : forall task s, R s (set_task_queue (task_queue s ++ [Some task]) s).
Hypothesis R_cancel : forall n pc s, R s (exec (Cancel n) (pc, s)).2.
Hypothesis R_stop : forall s, R s (final (Pool_stop s)).
Hypothesis R_turn : forall pc, respects R (task_scheduler_turn pc).

Lemma exec_respects (a : action) (pc : scheduler_pc) (s : Pool) :
  R s (exec a (pc, s)).2.
Proof.
  destruct a.
  - simpl. pose proof (R_turn pc s) as H.
    by destruct (task_scheduler_turn pc s).
  - apply process_message_respects.
  - apply update_status_respects.
  - apply R_submit.
  - apply R_cancel.
  - apply R_stop.
  - by apply R_quiet, quiet_step_frame.
  - by apply R_quiet, quiet_step_frame.
Qed.

Lemma run_respects (acts : list action) (pc : scheduler_pc) (s : Pool) :
  R s (run acts (pc, s)).2.
Proof.
  revert pc s. induction acts as [|a acts IH]; intros pc s.
  - apply R_refl.
  - change (run (a :: acts) (pc, s)) with (run acts (exec a (pc, s))).
    destruct (exec a (pc, s)) as [pc' s'] eqn:He.
    eapply R_trans; [|apply IH].
    pose proof (exec_respects a pc s) as H. by rewrite He in H.
Qed.
End Coordinator.

(** ** No task is resolved twice *)

Lemma resolved_app (n : Z) (l1 l2 : list event) :
  resolved n (l1 ++ l2) = (resolved n l1 + resolved n l2)%nat.
Proof. unfold resolved. by rewrite filter_app, length_app. Qed.

Lemma dispatched_app (n : Z) (l1 l2 : list event) :
  dispatched n (l1 ++ l2) = (dispatched n l1 + dispatched n l2)%nat.
Proof. unfold dispatched. by rewrite filter_app, length_app. Qed.

Lemma resolved_quiet (n : Z) (l : list event) :
  Forall (fun e => quiet e = true) l -> resolved n l = 0%nat.
Proof.
  intros Hl. unfold resolved. rewrite filter_none; [done|].
  eapply Forall_impl; [exact Hl|].
  intros [] He; simpl in *; try discriminate; by intros [].
Qed.

Lemma dispatched_quiet (n : Z) (l : list event) :
  Forall (fun e => quiet e = true) l -> dispatched n l = 0%nat.
Proof.
  intros Hl. unfold dispatched. rewrite filter_none; [done|].
  eapply Forall_impl; [exact Hl|].
  intros [] He; simpl in *; try discriminate; by intros [].
Qed.

Lemma resolved_done (n : Z) (t : Task) (o : outcome) :
  resolved n [SetResults t o; QueueTaskDone] = if decide (number t = n) then 1%nat else 0%nat.
Proof.
  unfold resolved. rewrite !filter_cons, filter_nil. simpl.
  destruct (decide (number t = n)) as [Heq|Hne].
  - rewrite bool_decide_eq_true_2 by done. done.
  - rewrite bool_decide_eq_false_2 by done. done.
Qed.

Lemma dispatched_NewTask (n id : Z) (p : metadata) :
  dispatched n [Send (NewTask id p)] = if decide (id = n) then 1%nat else 0%nat.
Proof.
  unfold dispatched. rewrite !filter_cons, filter_nil. simpl.
  destruct (decide (id = n)) as [Heq|Hne].
  - rewrite bool_decide_eq_true_2 by done. done.
  - rewrite bool_decide_eq_false_2 by done. done.
Qed.

Lemma once_step_trans (n : Z) (s1 s2 s3 : Pool) :
  once_step n s1 s2 -> once_step n s2 s3 -> once_step n s1 s3.
Proof.
  intros H12 H23 Hk. destruct (H12 Hk) as [Hk2 Hle2].
  destruct (H23 Hk2) as [Hk3 Hle3]. split; [done|]. lia.
Qed.

Lemma once_step_quiet (n : Z) (s s' : Pool) : quiet_step s s' -> once_step n s s'.
Proof.
  intros (Ht & _ & _ & ext & He & Hq) Hk. split.
  - unfold tasks_keyed. by rewrite Ht.
  - unfold present. rewrite Ht, He, resolved_app, dispatched_app.
    rewrite (resolved_quiet n ext Hq), (dispatched_quiet n ext Hq). lia.
Qed.

Lemma once_step_task_done (n task_id : Z) (results : outcome) :
  respects (once_step n) (task_done task_id results).
Proof.
  intros s Hk. unfold task_done, try_except_else, tasks_pop.
  destruct (tasks s !! task_id) as [t|] eqn:Ht; simpl.
  - split; [by apply map_Forall_delete|].
    rewrite <- app_assoc, resolved_app, dispatched_app. simpl.
    unfold present. simpl.
    assert (Hnum : number t = task_id) by (by apply (Hk task_id t)).
    rewrite resolved_done, Hnum. unfold dispatched at 3. simpl.
    destruct (decide (task_id = n)) as [->|Hne].
    + rewrite lookup_delete_eq, Ht. lia.
    + rewrite lookup_delete_ne by done. lia.
  - split; [done|]. lia.
Qed.

Lemma once_step_task_start (n task_id worker_id : Z) :
  respects (once_step n) (task_start task_id worker_id).
Proof.
  intros s Hk. unfold task_start, bind, tasks_getitem.
  destruct (tasks s !! task_id) as [t|] eqn:Ht; simpl.
  - split.
    + apply map_Forall_insert_2; [|done]. simpl. by apply (Hk task_id t).
    + unfold present. simpl.
      destruct (decide (task_id = n)) as [->|Hne].
      * rewrite lookup_insert_eq, Ht. lia.
      * rewrite lookup_insert_ne by done. lia.
  - split; [done|]. lia.
Qed.

Lemma once_step_frame (n : Z) (s s' : Pool) :
  tasks s' = tasks s -> events s' = events s -> once_step n s s'.
Proof.
  intros Ht He Hk. unfold tasks_keyed, present. rewrite Ht, He. split; [done|]. lia.
Qed.

Lemma once_step_cancel (n m : Z) (pc : scheduler_pc) (s : Pool) :
  once_step n s (exec (Cancel m) (pc, s)).2.
Proof.
  intros Hk. split.
  - unfold tasks_keyed. simpl. apply map_Forall_fmap.
    eapply map_Forall_impl; [exact Hk|].
    intros k t Ht. simpl. unfold cancel_numbered. by destruct (decide _).
  - unfold present. simpl. rewrite lookup_fmap.
    destruct (tasks s !! n); simpl; lia.
Qed.

Lemma once_step_schedule (n : Z) (task : Task) :
  respects (once_step n) (schedule task).
Proof.
  intros s Hk. simpl. split.
  - by apply map_Forall_insert_2.
  - rewrite resolved_app, dispatched_app. unfold present. simpl.
    rewrite dispatched_NewTask. unfold resolved at 2. simpl.
    destruct (decide (number task = n)) as [Heq|Hne].
    + rewrite Heq, lookup_insert_eq. destruct (tasks s !! n); lia.
    + rewrite lookup_insert_ne by done. lia.
Qed.

Lemma once_step_emit (n : Z) (e : event) (s : Pool) :
  quiet e = true -> once_step n s (add_event e s).
Proof. intros He. by apply once_step_quiet, quiet_step_emit. Qed.

Lemma once_step_turn (n : Z) (pc : scheduler_pc) :
  respects (once_step n) (task_scheduler_turn pc).
Proof.
  intros s. destruct pc; simpl; try (by apply once_step_frame).
  destruct (task_queue s) as [|item rest] eqn:Hq; simpl; [by apply once_step_frame|].
  eapply once_step_trans; [by apply (once_step_frame n s (set_task_queue rest s))|].
  eapply once_step_trans; [by apply (once_step_emit n (QueueGet item))|].
  unfold bind. simpl. destruct item as [t|]; simpl.
  - destruct (cancelled t); simpl.
    + by apply once_step_emit.
    + apply (once_step_schedule n t).
  - by apply once_step_emit.
Qed.

(** C4. [task_done] always returns and leaves the table without the key;
    when the key was there, it calls [set_results] with the outcome on the
    task found and then the completion callback, once each, and when it was
    not there it changes nothing.  Hence over any run of the coordinator
    (messages, status turns with their timeouts, cancellations and worker
    crashes, scheduler turns), for every task number the calls of
    [set_results], plus the entry of the number if it is still in the table,
    grow by no more than the registrations of that number, each of which
    sends one [NewTask]: a task registered once is resolved at most once. *)
Theorem task_done_at_most_once :
  (forall (s : Pool) (task_id : Z) (results : outcome),
     exists s',
       task_done task_id results s = Ok tt s' /\
       tasks s' = delete task_id (tasks s) /\
       match tasks s !! task_id with
       | Some task => events s' = events s ++ [SetResults task results; QueueTaskDone]
       | None => s' = s
       end) /\
  (forall (acts : list action) (pc : scheduler_pc) (s : Pool) (n : Z),
     tasks_keyed s ->
     (resolved n (events (run acts (pc, s)).2) + present n (run acts (pc, s)).2
        + dispatched n (events s)
      <= resolved n (events s) + present n s
        + dispatched n (events (run acts (pc, s)).2))%nat).
Proof.
  split.
  - intros s task_id results.
    destruct (task_done_spec s task_id results) as (s' & H1 & H2 & _ & H3).
    by exists s'.
  - intros acts pc s n Hk.
    apply (run_respects (once_step n) (once_step_trans n) (once_step_quiet n)
             (once_step_task_done n) (once_step_task_start n)
             (fun t s => once_step_frame n s _ eq_refl eq_refl)
             (once_step_cancel n)
             (fun s => once_step_frame n s _ eq_refl eq_refl)
             (once_step_turn n) acts pc s Hk).
Qed.

Lemma task_done_at_most_once_witness :
  tasks_keyed empty_pool /\
  (resolved 1 (events (run complete_twice (AtWhile, empty_pool)).2) <= 1)%nat.
Proof.
  assert (Hk : tasks_keyed empty_pool)
    by (apply (bool_decide_unpack _); vm_compute; exact I).
  split; [exact Hk|].
  pose proof (proj2 task_done_at_most_once complete_twice AtWhile empty_pool 1 Hk) as H.
  assert (Hd : dispatched 1 (events (run complete_twice (AtWhile, empty_pool)).2) = 1%nat)
    by (vm_compute; reflexivity).
  assert (Hr0 : resolved 1 (events empty_pool) = 0%nat) by reflexivity.
  assert (Hp0 : present 1 empty_pool = 0%nat) by reflexivity.
  assert (Hd0 : dispatched 1 (events empty_pool) = 0%nat) by reflexivity.
  rewrite Hd, Hr0, Hp0, Hd0 in H. lia.
Defined.

(** ** The scheduler loop *)

Lemma each_preceded_silent (n : Z) (tr ext : list event) :
  each_preceded (justified n) tr ->
  Forall (fun e => silent e = true) ext ->
  each_preceded (justified n) (tr ++ ext).
Proof.
  intros Htr Hext. revert tr Htr.
  induction Hext as [|e ext He Hext IH]; intros tr Htr.
  - by rewrite app_nil_r.
  - rewrite (cons_middle e tr ext), app_assoc. apply IH.
    apply each_preceded_snoc; [done|]. by destruct e.
Qed.

Lemma dispatched_silent (n : Z) (l : list event) :
  Forall (fun e => silent e = true) l -> dispatched n l = 0%nat.
Proof.
  intros Hl. unfold dispatched. rewrite filter_none; [done|].
  eapply Forall_impl; [exact Hl|].
  intros [] He; simpl in *; try discriminate; by intros [].
Qed.

Lemma dispatch_step_ext (n : Z) (s s' : Pool) (ext : list event) :
  events s' = events s ++ ext ->
  Forall (fun e => silent e = true) ext ->
  (tasks s !! n = None -> tasks s' !! n = None) ->
  dispatch_step n s s'.
Proof.
  intros He Hs Ht. exists ext. split; [done|]. split.
  - intros Hj. rewrite He. by apply each_preceded_silent.
  - intros Hn _. by apply Ht.
Qed.

Lemma dispatch_step_frame (n : Z) (s s' : Pool) :
  events s' = events s -> (tasks s !! n = None -> tasks s' !! n = None) ->
  dispatch_step n s s'.
Proof.
  intros He Ht. apply (dispatch_step_ext n s s' []); [|done|done].
  by rewrite app_nil_r.
Qed.

Lemma dispatch_step_trans (n : Z) (s1 s2 s3 : Pool) :
  dispatch_step n s1 s2 -> dispatch_step n s2 s3 -> dispatch_step n s1 s3.
Proof.
  intros (e1 & He1 & Hj1 & Ht1) (e2 & He2 & Hj2 & Ht2).
  exists (e1 ++ e2). split; [by rewrite He2, He1, <- app_assoc|].
  split; [auto|]. intros Hn Hd. rewrite dispatched_app in Hd.
  apply Ht2; [apply Ht1; [done|lia]|lia].
Qed.

Lemma dispatch_step_quiet (n : Z) (s s' : Pool) :
  quiet_step s s' -> dispatch_step n s s'.
Proof.
  intros (Ht & _ & _ & ext & He & Hq).
  apply (dispatch_step_ext n s s' ext); [done| |by rewrite Ht].
  eapply Forall_impl; [exact Hq|]. by intros [].
Qed.

Lemma dispatch_step_task_done (n task_id : Z) (results : outcome) :
  respects (dispatch_step n) (task_done task_id results).
Proof.
  intros s. destruct (task_done_spec s task_id results) as (s' & Hrun & Ht & _ & He).
  rewrite Hrun. simpl.
  destruct (tasks s !! task_id) as [t|].
  - apply (dispatch_step_ext n s s' _ He); [by repeat constructor|].
    intros Hn. rewrite Ht. by apply lookup_delete_None; right.
  - subst s'. by apply dispatch_step_frame.
Qed.

Lemma dispatch_step_task_start (n task_id worker_id : Z) :
  respects (dispatch_step n) (task_start task_id worker_id).
Proof.
  intros s. unfold task_start, bind, tasks_getitem.
  destruct (tasks s !! task_id) as [t|] eqn:Ht; simpl.
  - apply dispatch_step_frame; [done|]. simpl. intros Hn.
    rewrite lookup_insert_ne; [done|]. congruence.
  - by apply dispatch_step_frame.
Qed.

Lemma dispatch_step_cancel (n m : Z) (pc : scheduler_pc) (s : Pool) :
  dispatch_step n s (exec (Cancel m) (pc, s)).2.
Proof.
  apply dispatch_step_frame; [done|]. simpl. intros Hn.
  by rewrite lookup_fmap, Hn.
Qed.

Lemma dispatch_step_turn (n : Z) (pc : scheduler_pc) :
  respects (dispatch_step n) (task_scheduler_turn pc).
Proof.
  intros s. destruct pc; simpl; try (by apply dispatch_step_frame).
  destruct (task_queue s) as [|item rest] eqn:Hq; simpl; [by apply dispatch_step_frame|].
  unfold bind. simpl. destruct item as [t|]; simpl.
  - destruct (cancelled t) eqn:Hc; simpl.
    + apply (dispatch_step_ext n s _ [QueueGet (Some t); QueueTaskDone]);
        [simpl; by rewrite <- app_assoc|by repeat constructor|done].
    + exists [QueueGet (Some t); Send (NewTask (number t) (_metadata t))].
      simpl. split; [by rewrite <- app_assoc|]. split.
      * intros Hj. apply each_preceded_snoc; [by apply each_preceded_snoc|].
        simpl. intros Hn. by exists (events s), t.
      * intros Hn Hd.
        change (dispatched n ([QueueGet (Some t)]
                  ++ [Send (NewTask (number t) (_metadata t))]) = 0%nat) in Hd.
        rewrite dispatched_app, dispatched_NewTask in Hd.
        destruct (decide (number t = n)) as [Heq|Hne]; [simpl in Hd; lia|].
        by rewrite lookup_insert_ne.
  - apply (dispatch_step_ext n s _ [QueueGet None; QueueTaskDone]);
      [simpl; by rewrite <- app_assoc|by repeat constructor|done].
Qed.

Lemma run_dispatch_step (n : Z) (acts : list action) (pc : scheduler_pc) (s : Pool) :
  dispatch_step n s (run acts (pc, s)).2.
Proof.
  apply (run_respects (dispatch_step n) (dispatch_step_trans n) (dispatch_step_quiet n)
           (dispatch_step_task_done n) (dispatch_step_task_start n)).
  - intros t s0. by apply dispatch_step_frame.
  - apply dispatch_step_cancel.
  - intros s0. by apply dispatch_step_frame.
  - apply dispatch_step_turn.
Qed.

(** C9. Over any run of the coordinator, if every time the scheduler loop
    took the task numbered [n] from the queue its cancel flag was set, then
    no [NewTask] for [n] is on the channel and [n] is not in the task table
    (it went through neither [dispatch] nor [register]), given that neither
    was the case before the run. *)
Theorem cancelled_before_turn_never_dispatched
    (acts : list action) (pc : scheduler_pc) (s : Pool) (n : Z) :
  tasks s !! n = None ->
  (forall p, Send (NewTask n p) ∉ events s) ->
  (forall t, QueueGet (Some t) ∈ events (run acts (pc, s)).2 ->
             number t = n -> cancelled t = true) ->
  (forall p, Send (NewTask n p) ∉ events (run acts (pc, s)).2) /\
  tasks (run acts (pc, s)).2 !! n = None.
Proof.
  intros Hn Hno Hget.
  destruct (run_dispatch_step n acts pc s) as (ext & He & Hj & Ht).
  assert (Hj0 : each_preceded (justified n) (events s)).
  { intros pre e post Heq. destruct e as [| | |[|id p| |]| | | |]; try exact I.
    simpl. intros ->. exfalso. apply (Hno p). rewrite Heq.
    apply elem_of_app. right. apply list_elem_of_here. }
  specialize (Hj Hj0).
  assert (Hnone : forall p, Send (NewTask n p) ∉ events (run acts (pc, s)).2).
  { intros p Hin. apply list_elem_of_split in Hin as (l1 & l2 & Heq).
    destruct (Hj l1 _ l2 Heq eq_refl) as (pre' & t & -> & Hnum & _ & Hc).
    rewrite (Hget t) in Hc; [done| |done].
    rewrite Heq. apply elem_of_app. left. apply elem_of_app. right.
    apply list_elem_of_here. }
  split; [exact Hnone|].
  apply Ht; [done|]. unfold dispatched. rewrite filter_none; [done|].
  apply Forall_forall. intros e Hin Hd.
  destruct e as [| | |[|id p| |]| | | |]; simpl in Hd; try done.
  apply bool_decide_unpack in Hd as ->.
  apply (Hnone p). rewrite He. apply elem_of_app. by right.
Qed.

Lemma cancelled_before_turn_never_dispatched_witness :
  (forall p, Send (NewTask 1 p) ∉ events (run cancel_early (AtWhile, empty_pool)).2) /\
  tasks (run cancel_early (AtWhile, empty_pool)).2 !! 1 = None.
Proof.
  apply (cancelled_before_turn_never_dispatched cancel_early AtWhile empty_pool 1).
  - reflexivity.
  - intros p Hin. simpl in Hin. by apply elem_of_nil in Hin.
  - intros t Hin _.
    assert (Hev : events (run cancel_early (AtWhile, empty_pool)).2 =
                  [QueueGet (Some (cancel fresh_task)); QueueTaskDone])
      by (vm_compute; reflexivity).
    rewrite Hev in Hin.
    apply elem_of_cons in Hin as [Heq|Hin].
    + injection Heq as ->. reflexivity.
    + apply elem_of_cons in Hin as [Heq|Hin]; [discriminate|].
      by apply elem_of_nil in Hin.
Defined.

Lemma stop_step_trans (s1 s2 s3 : Pool) :
  stop_step s1 s2 -> stop_step s2 s3 -> stop_step s1 s3.
Proof. intros [H1 H1'] [H2 H2']. split; auto. Qed.

Lemma stop_step_frame (s s' : Pool) :
  task_queue s' = task_queue s -> alive s' = alive s -> stop_step s s'.
Proof. intros Hq Ha. unfold stop_step, sentinel_ok. by rewrite Hq, Ha. Qed.

Lemma stop_step_quiet (s s' : Pool) : quiet_step s s' -> stop_step s s'.
Proof. intros (_ & Hq & Ha & _). by apply stop_step_frame. Qed.

Lemma stop_step_task_done (task_id : Z) (results : outcome) :
  respects stop_step (task_done task_id results).
Proof.
  intros s. unfold task_done, try_except_else, tasks_pop.
  destruct (tasks s !! task_id); simpl; by apply stop_step_frame.
Qed.

Lemma stop_step_task_start (task_id worker_id : Z) :
  respects stop_step (task_start task_id worker_id).
Proof.
  intros s. unfold task_start, bind, tasks_getitem.
  destruct (tasks s !! task_id); simpl; by apply stop_step_frame.
Qed.

Lemma stop_step_submit (task : Task) (s : Pool) :
  stop_step s (set_task_queue (task_queue s ++ [Some task]) s).
Proof.
  split; [|done]. unfold sentinel_ok. simpl. intros Hs Hin. apply Hs.
  apply elem_of_app in Hin as [Hin|Hin]; [done|].
  apply list_elem_of_singleton in Hin. discriminate.
Qed.

Lemma stop_step_cancel (n : Z) (pc : scheduler_pc) (s : Pool) :
  stop_step s (exec (Cancel n) (pc, s)).2.
Proof.
  split; [|done]. unfold sentinel_ok. simpl. intros Hs Hin. apply Hs.
  apply list_elem_of_fmap in Hin as ([t|] & Heq & Hin); [discriminate|done].
Qed.

Lemma stop_step_stop (s : Pool) : stop_step s (final (Pool_stop s)).
Proof. split; [|done]. by intros _ _. Qed.

Lemma stop_step_turn (pc : scheduler_pc) : respects stop_step (task_scheduler_turn pc).
Proof.
  intros s. destruct pc; simpl; try (by apply stop_step_frame).
  destruct (task_queue s) as [|item rest] eqn:Hq; simpl; [by apply stop_step_frame|].
  assert (Hrest : stop_step s (set_task_queue rest s)).
  { split; [|done]. unfold sentinel_ok. simpl. rewrite Hq. intros Hs Hin.
    apply Hs. by apply list_elem_of_further. }
  eapply stop_step_trans; [exact Hrest|].
  unfold bind. simpl. destruct item as [t|]; simpl; [destruct (cancelled t); simpl|];
    by apply stop_step_frame.
Qed.

Lemma run_stop_step (acts : list action) (pc : scheduler_pc) (s : Pool) :
  stop_step s (run acts (pc, s)).2.
Proof.
  apply (run_respects stop_step stop_step_trans stop_step_quiet
           stop_step_task_done stop_step_task_start stop_step_submit
           stop_step_cancel stop_step_stop stop_step_turn).
Qed.

Lemma exec_keeps_pc (a : action) (pc : scheduler_pc) (s : Pool) :
  a <> SchedulerTurn -> (exec a (pc, s)).1 = pc.
Proof. intros Ha. by destruct a. Qed.

Lemma run_keeps_pc (acts : list action) (pc : scheduler_pc) (s : Pool) :
  SchedulerTurn ∉ acts -> (run acts (pc, s)).1 = pc.
Proof.
  revert pc s. induction acts as [|a acts IH]; intros pc s Hno; [done|].
  change (run (a :: acts) (pc, s)) with (run acts (exec a (pc, s))).
  apply not_elem_of_cons in Hno as [Ha Hno].
  pose proof (exec_keeps_pc a pc s (not_eq_sym Ha)) as Hpc.
  destruct (exec a (pc, s)) as [pc' s']. simpl in Hpc. subst pc'. by apply IH.
Qed.

Lemma run_app (l1 l2 : list action) (st : scheduler_pc * Pool) :
  run (l1 ++ l2) st = run l2 (run l1 st).
Proof. apply foldl_app. Qed.

(** C3. In every state that a run of the coordinator reaches from a queue
    without [None], with the scheduler thread inside [get]: if the item it
    takes is [None], it marks the item done and dispatches nothing, and at
    its next turn, whatever the other threads did meanwhile, the loop is
    over; if the item is a cancelled task, it marks the item done, leaves
    table and channel alone and goes on with the loop; if it is any other
    task, it takes it through [pool_manager.schedule] and goes on. *)
Theorem scheduler_loop_turn (acts : list action) (pc0 : scheduler_pc) (s0 s : Pool) :
  None ∉ task_queue s0 ->
  run acts (pc0, s0) = (AtGet, s) ->
  match task_queue s with
  | [] => exec SchedulerTurn (AtGet, s) = (AtGet, s)
  | None :: rest =>
      exec SchedulerTurn (AtGet, s) =
        (AtWhile, add_event QueueTaskDone (add_event (QueueGet None) (set_task_queue rest s))) /\
      forall others, SchedulerTurn ∉ others ->
        (run (SchedulerTurn :: others ++ [SchedulerTurn]) (AtGet, s)).1 = Finished
  | Some task :: rest =>
      if cancelled task
      then exec SchedulerTurn (AtGet, s) =
             (AtWhile, add_event QueueTaskDone
                         (add_event (QueueGet (Some task)) (set_task_queue rest s)))
      else exec SchedulerTurn (AtGet, s) =
             (AtWhile, final (schedule task
                         (add_event (QueueGet (Some task)) (set_task_queue rest s))))
  end.
Proof.
  intros Hfree Hrun.
  assert (Hs : sentinel_ok s).
  { pose proof (run_stop_step acts pc0 s0) as [H _]. rewrite Hrun in H.
    apply H. by intros ?. }
  destruct (task_queue s) as [|[task|] rest] eqn:Hq.
  - simpl. by rewrite Hq.
  - simpl. rewrite Hq. unfold bind. simpl. by destruct (cancelled task).
  - assert (Ha : alive s = false) by (apply Hs; rewrite Hq; apply list_elem_of_here).
    assert (Hturn : exec SchedulerTurn (AtGet, s) =
      (AtWhile, add_event QueueTaskDone (add_event (QueueGet None) (set_task_queue rest s))))
      by (simpl; by rewrite Hq).
    split; [exact Hturn|]. intros others Hno.
    change (run (SchedulerTurn :: others ++ [SchedulerTurn]) (AtGet, s))
      with (run (others ++ [SchedulerTurn]) (exec SchedulerTurn (AtGet, s))).
    rewrite Hturn, run_app.
    set (s1 := add_event QueueTaskDone (add_event (QueueGet None) (set_task_queue rest s))).
    pose proof (run_keeps_pc others AtWhile s1 Hno) as Hpc.
    pose proof (run_stop_step others AtWhile s1) as [_ Hal].
    destruct (run others (AtWhile, s1)) as [pc2 s2]. simpl in Hpc, Hal. subst pc2.
    unfold run. simpl. by rewrite (Hal Ha).
Qed.

Lemma scheduler_loop_turn_witness :
  (None ∉ task_queue empty_pool) /\
  (run (SchedulerTurn :: [Tick 101] ++ [SchedulerTurn])
       (run stop_while_waiting (AtWhile, empty_pool))).1 = Finished.
Proof.
  assert (Hfree : None ∉ task_queue empty_pool) by (simpl; apply not_elem_of_nil).
  split; [exact Hfree|].
  pose proof (scheduler_loop_turn stop_while_waiting AtWhile empty_pool
                (run stop_while_waiting (AtWhile, empty_pool)).2 Hfree eq_refl) as H.
  simpl in H. destruct H as [_ H]. apply (H [Tick 101]).
  intros Hin. apply list_elem_of_singleton in Hin. discriminate.
Defined.

(** ** Status turns: expired workers *)

Lemma for_each_workers_pop (l : list Worker) (s : Pool) :
  NoDup (pid <$> l) ->
  (forall w, w ∈ l -> workers s !! pid w = Some w) ->
  for_each l (fun worker => _ <- workers_pop (pid worker) ;; ret tt) s =
  Ok tt (set_workers (remove_workers (pid <$> l) (workers s)) s).
Proof.
  revert s. induction l as [|w l IH]; intros s Hnd Hin.
  - simpl. unfold ret. by destruct s.
  - apply NoDup_cons in Hnd as [Hw Hnd].
    simpl. unfold bind at 1, bind at 1, workers_pop.
    rewrite (Hin w) by apply list_elem_of_here. simpl.
    rewrite IH; [done|done|]. simpl. intros w' Hw'.
    rewrite lookup_delete_ne.
    + apply Hin. by apply list_elem_of_further.
    + intros Heq. apply Hw. rewrite Heq. by apply list_elem_of_fmap_2.
Qed.

Lemma workers_keyed_lookup (s : Pool) (w : Worker) :
  workers_keyed s -> w ∈ workers_values s -> workers s !! pid w = Some w.
Proof.
  intros Hk [k Hw]%elem_of_workers_values. by rewrite (Hk k w Hw).
Qed.

Lemma workers_values_pids_NoDup (P : Worker -> bool) (s : Pool) :
  workers_keyed s -> NoDup (pid <$> filter (fun w => P w) (workers_values s)).
Proof.
  intros Hk. apply NoDup_fmap_2_strong.
  - intros w w' [_ Hw]%list_elem_of_filter [_ Hw']%list_elem_of_filter Heq.
    apply (workers_keyed_lookup s w Hk) in Hw.
    apply (workers_keyed_lookup s w' Hk) in Hw'.
    rewrite Heq in Hw. congruence.
  - apply NoDup_filter. unfold workers_values.
    apply (NoDup_fmap_1 pid). rewrite <- list_fmap_compose.
    assert (Heq : (pid ∘ snd) <$> map_to_list (workers s) = (map_to_list (workers s)).*1).
    { apply list_fmap_ext. intros i [k w] Hi. simpl.
      apply list_elem_of_lookup_2, elem_of_map_to_list in Hi. by apply Hk in Hi. }
    rewrite Heq. apply NoDup_fst_map_to_list.
Qed.

Lemma inspect_workers_run (s : Pool) :
  workers_keyed s ->
  inspect_workers s =
  Ok (expirations s)
     (set_workers (remove_workers (pid <$> expired_workers s) (workers s)) s).
Proof.
  intros Hk. unfold inspect_workers. fold (expired_workers s).
  unfold bind at 1. rewrite for_each_workers_pop.
  - reflexivity.
  - by apply workers_values_pids_NoDup.
  - intros w [_ Hw]%list_elem_of_filter. by apply workers_keyed_lookup.
Qed.

Lemma omap_unique {A B} (f : A -> option B) (l : list A) (x y : A) (b : B) :
  NoDup (omap f l) -> x ∈ l -> y ∈ l -> f x = Some b -> f y = Some b -> x = y.
Proof.
  induction l as [|a l IH]; intros Hnd Hx Hy Hfx Hfy; [by apply elem_of_nil in Hx|].
  simpl in Hnd.
  apply elem_of_cons in Hx as [->|Hx]; apply elem_of_cons in Hy as [->|Hy]; [done| | |].
  - rewrite Hfx in Hnd. apply NoDup_cons in Hnd as [Hn _].
    exfalso. apply Hn. apply list_elem_of_omap. by exists y.
  - rewrite Hfy in Hnd. apply NoDup_cons in Hnd as [Hn _].
    exfalso. apply Hn. apply list_elem_of_omap. by exists x.
  - apply IH; try done. destruct (f a); [by apply NoDup_cons in Hnd as [_ ?]|done].
Qed.

Lemma single_owner_delete (s : Pool) (k : Z) :
  single_owner s -> single_owner (set_tasks (delete k (tasks s)) s).
Proof.
  unfold single_owner, tasks_values. simpl. intros Hnd.
  destruct (tasks s !! k) as [t|] eqn:Ht; [|by rewrite delete_id].
  pose proof (map_to_list_delete (tasks s) k t Ht) as Hperm.
  rewrite <- Hperm in Hnd. simpl in Hnd.
  destruct (worker_of t); [by apply NoDup_cons in Hnd as [_ ?]|done].
Qed.

(** [worker_id_lookup] finds the task of the worker, if it has one. *)
Lemma worker_id_lookup_found (s : Pool) (p : Z) (t : Task) :
  single_owner s -> t ∈ tasks_values s -> _metadata t = MWorker p ->
  worker_id_lookup p s = Ok t s.
Proof.
  intros Hso Hin Hp. unfold worker_id_lookup.
  destruct (list_find _ _) as [[i t']|] eqn:Hf.
  - apply list_find_Some in Hf as (Hi & Hp' & _).
    apply list_elem_of_lookup_2 in Hi.
    assert (t' = t); [|by subst].
    apply (omap_unique worker_of (tasks_values s) t' t p Hso Hi Hin);
      by apply worker_of_Some.
  - apply list_find_None in Hf. rewrite Forall_forall in Hf.
    by apply Hf in Hin.
Qed.

Lemma worker_id_lookup_result (s : Pool) (p : Z) :
  match worker_id_lookup p s with
  | Ok t s' => s' = s /\ t ∈ tasks_values s /\ _metadata t = MWorker p
  | Raise e s' => s' = s /\ e = LookupError /\
                  forall t, t ∈ tasks_values s -> _metadata t <> MWorker p
  end.
Proof.
  unfold worker_id_lookup.
  destruct (list_find _ _) as [[i t']|] eqn:Hf.
  - apply list_find_Some in Hf as (Hi & Hp' & _).
    by apply list_elem_of_lookup_2 in Hi.
  - apply list_find_None in Hf. rewrite Forall_forall in Hf. done.
Qed.

Lemma for_each_cons {A} (x : A) (l : list A) (body : A -> M unit) (s : Pool) :
  for_each (x :: l) body s =
  match body x s with
  | Ok _ s' => for_each l body s'
  | Raise e s' => Raise e s'
  end.
Proof. reflexivity. Qed.

Lemma handle_worker_expiration_found (s : Pool) (p : Z) (code : option Z) (t : Task) :
  tasks_keyed s -> t ∈ tasks_values s -> worker_id_lookup p s = Ok t s ->
  handle_worker_expiration (p, code) s =
  Ok tt (add_event QueueTaskDone
           (add_event (SetResults t (ProcessExpired "Abnormal termination" code))
              (set_tasks (delete (number t) (tasks s)) s))).
Proof.
  intros Hk Hin Hl. unfold handle_worker_expiration, try_except_else.
  rewrite Hl. unfold task_done, try_except_else, tasks_pop.
  by rewrite (tasks_keyed_lookup s t Hk Hin).
Qed.

Lemma handle_worker_expiration_dropped (s : Pool) (p : Z) (code : option Z) :
  (forall t, t ∈ tasks_values s -> _metadata t <> MWorker p) ->
  handle_worker_expiration (p, code) s = Ok tt s.
Proof.
  intros Hno. unfold handle_worker_expiration, try_except_else.
  pose proof (worker_id_lookup_result s p) as H.
  destruct (worker_id_lookup p s) as [t s'|e s'].
  - destruct H as (_ & Hin & Hp). by apply Hno in Hin.
  - by destruct H as (-> & -> & _).
Qed.

Lemma expirations_loop (exps : list (Z * option Z)) (s : Pool) :
  tasks_keyed s -> single_owner s -> NoDup exps.*1 ->
  exists s' ext,
    for_each exps handle_worker_expiration s = Ok tt s' /\
    workers s' = workers s /\ next_pid s' = next_pid s /\
    workers_number s' = workers_number s /\
    events s' = events s ++ ext /\
    Forall (fun e => is_resolution e = true) ext /\
    (forall t o, SetResults t o ∈ ext <->
       exists p code, (p, code) ∈ exps /\
                      o = ProcessExpired "Abnormal termination" code /\
                      t ∈ tasks_values s /\ _metadata t = MWorker p) /\
    (forall k t, tasks s' !! k = Some t -> tasks s !! k = Some t) /\
    (forall k t, tasks s !! k = Some t ->
                 (forall p, _metadata t = MWorker p -> p ∉ exps.*1) ->
                 tasks s' !! k = Some t) /\
    (forall t p, t ∈ tasks_values s -> _metadata t = MWorker p -> p ∈ exps.*1 ->
                 tasks s' !! number t = None).
Proof.
  revert s. induction exps as [|[p0 c0] exps IH]; intros s Hk Hso Hnd.
  - exists s, []. split; [done|]. repeat (split; [done|]).
    split; [by rewrite app_nil_r|]. split; [constructor|].
    split; [|split; [done|split; [done|]]].
    + intros t o. split; [by intros ?%elem_of_nil|].
      by intros (p & code & ?%elem_of_nil & _).
    + by intros t p _ _ ?%elem_of_nil.
  - rewrite fmap_cons in Hnd. apply NoDup_cons in Hnd as [Hp0 Hnd]. simpl in Hp0.
    pose proof (worker_id_lookup_result s p0) as Hres.
    destruct (worker_id_lookup p0 s) as [t0 s0|e s0] eqn:Hl.
    + destruct Hres as (-> & Hin0 & Hm0).
      set (s1 := add_event QueueTaskDone
                   (add_event (SetResults t0 (ProcessExpired "Abnormal termination" c0))
                      (set_tasks (delete (number t0) (tasks s)) s))).
      assert (Hk1 : tasks_keyed s1) by (by apply map_Forall_delete).
      assert (Hso1 : single_owner s1) by (by apply (single_owner_delete s)).
      destruct (IH s1 Hk1 Hso1 Hnd)
        as (s' & ext & Hrun & Hw & Hnp & Hwn & Hev & Hres & Hset & Hsub & Hkeep & Hgone).
      assert (Hin1 : forall t, t ∈ tasks_values s1 <-> t ∈ tasks_values s /\ t <> t0).
      { intros t. rewrite !elem_of_tasks_values. simpl. split.
        - intros [k Hkt]. apply lookup_delete_Some in Hkt as [Hne Hkt].
          split; [by exists k|]. intros ->. apply Hne.
          by apply (Hk k t0).
        - intros [[k Hkt] Hne]. exists k. apply lookup_delete_Some. split; [|done].
          intros <-. apply Hne.
          pose proof (tasks_keyed_lookup s t0 Hk Hin0). congruence. }
      exists s', (SetResults t0 (ProcessExpired "Abnormal termination" c0)
                    :: QueueTaskDone :: ext).
      split.
      { rewrite for_each_cons.
        rewrite (handle_worker_expiration_found s p0 c0 t0 Hk Hin0 Hl). exact Hrun. }
      split; [by rewrite Hw|]. split; [by rewrite Hnp|]. split; [by rewrite Hwn|].
      split; [rewrite Hev; simpl; by rewrite <- !app_assoc|].
      split; [by repeat constructor|].
      split; [|split; [|split]].
      * intros t o. rewrite !elem_of_cons, Hset. split.
        -- intros [Heq|[Heq|(p & code & Hin & -> & Ht & Hp)]]; [|discriminate|].
           ++ injection Heq as -> ->. exists p0, c0.
              split; [apply list_elem_of_here|done].
           ++ exists p, code. split; [by apply list_elem_of_further|].
              split; [done|]. split; [by apply Hin1 in Ht as [? _]|done].
        -- intros (p & code & Hin & -> & Ht & Hp).
           apply elem_of_cons in Hin as [Heq|Hin].
           ++ injection Heq as -> ->. left.
              f_equal.
              apply (omap_unique worker_of (tasks_values s) t t0 p0 Hso Ht Hin0);
                by apply worker_of_Some.
           ++ right. right. exists p, code. split; [done|]. split; [done|].
              split; [|done]. apply Hin1. split; [done|].
              intros ->. apply Hp0. rewrite Hm0 in Hp. injection Hp as <-.
              apply list_elem_of_fmap. by exists (p0, code).
      * intros k t Hkt. apply Hsub in Hkt. simpl in Hkt.
        by apply lookup_delete_Some in Hkt as [_ ?].
      * intros k t Hkt Hno. apply Hkeep.
        -- simpl. apply lookup_delete_Some. split; [|done].
           intros <-. pose proof (tasks_keyed_lookup s t0 Hk Hin0) as H0.
           rewrite H0 in Hkt. injection Hkt as <-.
           apply (Hno p0 Hm0). rewrite fmap_cons. apply list_elem_of_here.
        -- intros p Hp Hin. apply (Hno p Hp). rewrite fmap_cons.
           by apply list_elem_of_further.
      * intros t p Ht Hp Hin. rewrite fmap_cons in Hin.
        destruct (decide (t = t0)) as [->|Hne].
        -- destruct (tasks s' !! number t0) as [t'|] eqn:Hs'; [|done].
           apply Hsub in Hs'. simpl in Hs'. by rewrite lookup_delete_eq in Hs'.
        -- apply elem_of_cons in Hin as [->|Hin].
           ++ exfalso. apply Hne.
              apply (omap_unique worker_of (tasks_values s) t t0 p0 Hso Ht Hin0);
                by apply worker_of_Some.
           ++ apply (Hgone t p); [by apply Hin1|done|done].
    + destruct Hres as (-> & -> & Hno).
      destruct (IH s Hk Hso Hnd)
        as (s' & ext & Hrun & Hw & Hnp & Hwn & Hev & Hres & Hset & Hsub & Hkeep & Hgone).
      exists s', ext. split.
      { rewrite for_each_cons.
        rewrite (handle_worker_expiration_dropped s p0 c0 Hno). exact Hrun. }
      repeat (split; [done|]).
      split; [|split; [done|split]].
      * intros t o. rewrite Hset. split.
        -- intros (p & code & Hin & ?). exists p, code.
           split; [by apply list_elem_of_further|done].
        -- intros (p & code & Hin & Ho & Ht & Hp). exists p, code.
           apply elem_of_cons in Hin as [Heq|Hin]; [|done].
           injection Heq as -> ->. by apply Hno in Ht.
      * intros k t Hkt Hnot. apply Hkeep; [done|].
        intros p Hp Hin. apply (Hnot p Hp). rewrite fmap_cons.
        by apply list_elem_of_further.
      * intros t p Ht Hp Hin. rewrite fmap_cons in Hin.
        apply elem_of_cons in Hin as [->|Hin]; [by apply Hno in Ht|].
        by apply (Hgone t p).
Qed.

Lemma new_worker_loop (l : list nat) (s : Pool) :
  fresh_pids s ->
  exists s' ext,
    for_each l (fun _ => new_worker) s = Ok tt s' /\
    tasks s' = tasks s /\
    size (workers s') = (size (workers s) + length l)%nat /\
    (all_alive s -> all_alive s') /\
    (forall k, k < next_pid s -> workers s' !! k = workers s !! k) /\
    events s' = events s ++ ext /\
    Forall (fun e => is_spawn e = true) ext /\
    length ext = length l.
Proof.
  revert s. induction l as [|x l IH]; intros s Hfresh.
  - exists s, []. split; [done|]. split; [done|]. split; [simpl; lia|].
    split; [done|]. split; [done|]. split; [by rewrite app_nil_r|]. by split.
  - set (w := mkWorker (next_pid s) true None).
    set (s1 := set_workers (<[next_pid s := w]> (workers s))
                 (set_next_pid (next_pid s + 1) (add_event (Spawn w) s))).
    assert (Hnone : workers s !! next_pid s = None).
    { destruct (workers s !! next_pid s) as [w'|] eqn:Hw; [|done].
      apply Hfresh in Hw. simpl in Hw. lia. }
    assert (Hfresh1 : fresh_pids s1).
    { unfold fresh_pids. simpl. apply map_Forall_insert_2; [lia|].
      eapply map_Forall_impl; [exact Hfresh|]. simpl. intros; lia. }
    destruct (IH s1 Hfresh1) as (s' & ext & Hrun & Ht & Hsz & Hal & Hsub & Hev & Hsp & Hlen).
    exists s', (Spawn w :: ext).
    split; [rewrite for_each_cons; exact Hrun|].
    split; [by rewrite Ht|].
    split; [rewrite Hsz; simpl; rewrite map_size_insert_None by done; lia|].
    split.
    { intros Ha. apply Hal. unfold all_alive. simpl.
      by apply map_Forall_insert_2. }
    split.
    { intros k Hk. rewrite Hsub by (simpl; lia). simpl.
      rewrite lookup_insert_ne; [done|lia]. }
    split; [rewrite Hev; simpl; by rewrite <- app_assoc|].
    split; [by constructor|]. simpl. by rewrite Hlen.
Qed.

Lemma filter_negb_length {A} (f : A -> bool) (l : list A) :
  (length (filter (fun x => negb (f x)) l) + length (filter (fun x => f x) l)
   = length l)%nat.
Proof.
  induction l as [|x l IH]; [done|].
  rewrite !filter_cons. destruct (f x); simpl; lia.
Qed.

Lemma remove_workers_size (pids : list Z) (ws : gmap Z Worker) :
  NoDup pids -> (forall p, p ∈ pids -> is_Some (ws !! p)) ->
  (size (remove_workers pids ws) + length pids = size ws)%nat.
Proof.
  revert ws. induction pids as [|p pids IH]; intros ws Hnd Hin.
  - simpl. lia.
  - apply NoDup_cons in Hnd as [Hp Hnd].
    unfold remove_workers in *. simpl.
    assert (Hs : is_Some (ws !! p)) by apply Hin, list_elem_of_here.
    assert (HIH : (size (foldl (fun ws p => delete p ws) (delete p ws) pids)
                   + length pids = size (delete p ws))%nat).
    { apply IH; [done|]. intros p' Hp'. rewrite lookup_delete_ne; [|by intros <-].
      apply Hin. by apply list_elem_of_further. }
    rewrite map_size_delete_Some in HIH by done.
    destruct Hs as [w Hw].
    assert (size ws <> 0%nat); [|lia].
    apply map_size_non_empty_iff. intros ->. by rewrite lookup_empty in Hw.
Qed.

Lemma elem_of_expirations (s : Pool) (p : Z) (code : option Z) :
  (p, code) ∈ expirations s <->
  exists w, w ∈ workers_values s /\ is_alive w = false /\ exitcode w <> Some 0 /\
            p = pid w /\ code = exitcode w.
Proof.
  unfold expirations, expired_workers. rewrite list_elem_of_fmap. split.
  - intros (w & Heq & Hin). injection Heq as -> ->.
    apply list_elem_of_filter in Hin as [Hab Hin].
    apply list_elem_of_filter in Hin as [Hdead Hin].
    exists w. split; [done|]. split; [by destruct (is_alive w)|].
    split; [|done]. unfold abnormal in Hab. by apply bool_decide_unpack in Hab.
  - intros (w & Hin & Hdead & Hab & -> & ->). exists w. split; [done|].
    apply list_elem_of_filter. split.
    + unfold abnormal. by apply bool_decide_pack.
    + apply list_elem_of_filter. split; [by rewrite Hdead|done].
Qed.

Lemma expirations_NoDup (s : Pool) : workers_keyed s -> NoDup (expirations s).*1.
Proof.
  intros Hk. unfold expirations. rewrite <- list_fmap_compose.
  apply NoDup_fmap_2_strong.
  - intros w w' [_ [_ Hw]%list_elem_of_filter]%list_elem_of_filter
      [_ [_ Hw']%list_elem_of_filter]%list_elem_of_filter Heq. simpl in Heq.
    apply (workers_keyed_lookup s w Hk) in Hw.
    apply (workers_keyed_lookup s w' Hk) in Hw'.
    rewrite Heq in Hw. congruence.
  - apply NoDup_filter, NoDup_filter. unfold workers_values.
    apply (NoDup_fmap_1 pid). rewrite <- list_fmap_compose.
    assert (Heq : (pid ∘ snd) <$> map_to_list (workers s) = (map_to_list (workers s)).*1).
    { apply list_fmap_ext. intros i [k w] Hi. simpl.
      apply list_elem_of_lookup_2, elem_of_map_to_list in Hi. by apply Hk in Hi. }
    rewrite Heq. apply NoDup_fst_map_to_list.
Qed.

Lemma workers_values_length (s : Pool) : length (workers_values s) = size (workers s).
Proof. unfold workers_values. by rewrite length_fmap, length_map_to_list. Qed.

Lemma evicted_lookup (s : Pool) (k : Z) :
  workers_keyed s ->
  remove_workers (pid <$> expired_workers s) (workers s) !! k =
  match workers s !! k with
  | Some w => if is_alive w then Some w else None
  | None => None
  end.
Proof.
  intros Hk. rewrite remove_workers_lookup.
  destruct (workers s !! k) as [w|] eqn:Hw; [|by destruct (decide _)].
  assert (Hin : w ∈ workers_values s) by (apply elem_of_workers_values; eauto).
  assert (Hpid : pid w = k) by (by apply (Hk k w)).
  destruct (is_alive w) eqn:Ha.
  - rewrite decide_False; [done|].
    intros (w' & Heq & [Hd Hin']%list_elem_of_filter)%list_elem_of_fmap.
    apply (workers_keyed_lookup s w' Hk) in Hin'. rewrite <- Heq, Hw in Hin'.
    injection Hin' as <-. by rewrite Ha in Hd.
  - rewrite decide_True; [done|]. rewrite <- Hpid. apply list_elem_of_fmap_2.
    apply list_elem_of_filter. split; [by rewrite Ha|done].
Qed.

Lemma evicted_size (s : Pool) :
  workers_keyed s ->
  size (remove_workers (pid <$> expired_workers s) (workers s)) = length (live_workers s).
Proof.
  intros Hk.
  pose proof (remove_workers_size (pid <$> expired_workers s) (workers s)) as Hsz.
  rewrite length_fmap in Hsz.
  pose proof (filter_negb_length is_alive (workers_values s)) as Hlen.
  rewrite workers_values_length in Hlen.
  fold (expired_workers s) in Hlen. fold (live_workers s) in Hlen.
  cut ((size (remove_workers (pid <$> expired_workers s) (workers s))
        + length (expired_workers s))%nat = size (workers s)); [lia|].
  apply Hsz.
  - by apply workers_values_pids_NoDup.
  - intros p (w & -> & [_ Hin]%list_elem_of_filter)%list_elem_of_fmap.
    rewrite (workers_keyed_lookup s w Hk Hin). eauto.
Qed.

(** C7. [update_workers] returns; the events it adds are first
    resolutions and then spawns.  For every worker of the table that is not
    alive and whose exit code is not 0, the task whose [_metadata] is the pid
    of that worker is resolved with [ProcessExpired] carrying that exit code
    and leaves the table; nothing else is resolved, and a task owned by no
    such worker stays.  An expiration whose pid no task carries changes
    nothing.  Workers that are not alive are taken out of the table, those
    that are alive stay, and [create_workers] then spawns running workers up
    to [workers_number]. *)
Theorem update_workers_spec (s : Pool) :
  tasks_keyed s -> workers_keyed s -> single_owner s -> fresh_pids s ->
  exists s' resolutions spawns,
    update_workers s = Ok tt s' /\
    events s' = events s ++ resolutions ++ spawns /\
    Forall (fun e => is_resolution e = true) resolutions /\
    Forall (fun e => is_spawn e = true) spawns /\
    (forall w t,
       w ∈ workers_values s -> is_alive w = false -> exitcode w <> Some 0 ->
       t ∈ tasks_values s -> _metadata t = MWorker (pid w) ->
       SetResults t (ProcessExpired "Abnormal termination" (exitcode w)) ∈ resolutions /\
       tasks s' !! number t = None) /\
    (forall t o,
       SetResults t o ∈ resolutions ->
       exists w, w ∈ workers_values s /\ is_alive w = false /\ exitcode w <> Some 0 /\
                 t ∈ tasks_values s /\ _metadata t = MWorker (pid w) /\
                 o = ProcessExpired "Abnormal termination" (exitcode w)) /\
    (forall k t,
       tasks s !! k = Some t ->
       (forall w, w ∈ workers_values s -> is_alive w = false -> exitcode w <> Some 0 ->
                  _metadata t <> MWorker (pid w)) ->
       tasks s' !! k = Some t) /\
    (forall p code s0,
       (forall t, t ∈ tasks_values s0 -> _metadata t <> MWorker p) ->
       handle_worker_expiration (p, code) s0 = Ok tt s0) /\
    (forall w, w ∈ workers_values s -> is_alive w = false -> workers s' !! pid w = None) /\
    (forall w, w ∈ workers_values s -> is_alive w = true -> workers s' !! pid w = Some w) /\
    Z.of_nat (size (workers s')) =
      Z.max (Z.of_nat (length (live_workers s))) (workers_number s) /\
    length spawns = Z.to_nat (workers_number s - Z.of_nat (length (live_workers s))) /\
    all_alive s'.
Proof.
  intros Hk Hwk Hso Hfresh.
  set (ws1 := remove_workers (pid <$> expired_workers s) (workers s)).
  set (s1 := set_workers ws1 s).
  destruct (expirations_loop (expirations s) s1 Hk Hso (expirations_NoDup s Hwk))
    as (s2 & res & Hrun2 & Hw2 & Hnp2 & Hwn2 & Hev2 & Hres & Hset & Hsub & Hkeep & Hgone).
  assert (Hfresh2 : fresh_pids s2).
  { unfold fresh_pids. rewrite Hw2, Hnp2. simpl. intros k w Hkw.
    unfold ws1 in Hkw. rewrite (evicted_lookup s k Hwk) in Hkw.
    destruct (workers s !! k) as [w'|] eqn:Hw'; [|done]. by apply (Hfresh k w'). }
  set (n := Z.to_nat (workers_number s2 - Z.of_nat (size (workers s2)))).
  destruct (new_worker_loop (seq 0 n) s2 Hfresh2)
    as (s3 & sp & Hrun3 & Ht3 & Hsz3 & Hal3 & Hsub3 & Hev3 & Hsp & Hlen3).
  assert (Hsize1 : size (workers s2) = length (live_workers s)).
  { rewrite Hw2. simpl. by apply evicted_size. }
  exists s3, res, sp.
  split.
  { unfold update_workers, bind at 1. rewrite (inspect_workers_run s Hwk).
    fold ws1. fold s1. unfold bind at 1. rewrite Hrun2.
    unfold create_workers. fold n. exact Hrun3. }
  split; [rewrite Hev3, Hev2; simpl; by rewrite <- app_assoc|].
  split; [exact Hres|]. split; [exact Hsp|].
  split; [|split; [|split; [|split; [|split; [|split; [|split; [|split]]]]]]].
  - intros w t Hw Hdead Hab Ht Hp. split.
    + apply Hset. exists (pid w), (exitcode w).
      split; [apply elem_of_expirations; by exists w|done].
    + rewrite Ht3. apply (Hgone t (pid w)); [done|done|].
      apply list_elem_of_fmap. exists (pid w, exitcode w). split; [done|].
      apply elem_of_expirations. by exists w.
  - intros t o (p & code & (w & Hw & Hdead & Hab & -> & ->)%elem_of_expirations
                 & -> & Ht & Hp)%Hset.
    by exists w.
  - intros k t Hkt Hno. rewrite Ht3. apply Hkeep; [done|].
    intros p Hp ([p' code] & Heq & Hin)%list_elem_of_fmap. simpl in Heq. subst p'.
    apply elem_of_expirations in Hin as (w & Hw & Hdead & Hab & -> & _).
    by apply (Hno w).
  - intros p code s0. apply handle_worker_expiration_dropped.
  - intros w Hw Hdead.
    assert (H2 : workers s2 !! pid w = None).
    { rewrite Hw2. simpl. unfold ws1. rewrite (evicted_lookup s _ Hwk).
      rewrite (workers_keyed_lookup s w Hwk Hw). by rewrite Hdead. }
    rewrite Hsub3; [done|]. rewrite Hnp2. simpl.
    apply (Hfresh (pid w) w). by apply workers_keyed_lookup.
  - intros w Hw Hal. rewrite Hsub3.
    + rewrite Hw2. simpl. unfold ws1.
      rewrite (evicted_lookup s _ Hwk), (workers_keyed_lookup s w Hwk Hw).
      by rewrite Hal.
    + rewrite Hnp2. simpl. apply (Hfresh (pid w) w). by apply workers_keyed_lookup.
  - rewrite Hsz3, length_seq. unfold n. rewrite Hwn2, Hsize1. simpl. lia.
  - rewrite Hlen3, length_seq. unfold n. by rewrite Hwn2, Hsize1.
  - apply Hal3. unfold all_alive. rewrite Hw2. simpl. intros k w Hkw.
    unfold ws1 in Hkw. rewrite (evicted_lookup s k Hwk) in Hkw.
    destruct (workers s !! k) as [w'|]; [|done].
    destruct (is_alive w') eqn:Ha; [|done]. by injection Hkw as <-.
Qed.

Lemma update_workers_spec_witness :
  tasks_keyed crashed_pool /\ workers_keyed crashed_pool /\
  single_owner crashed_pool /\ fresh_pids crashed_pool /\
  exists s' (resolutions : list event),
    update_workers crashed_pool = Ok tt s' /\
    SetResults late_task (ProcessExpired "Abnormal termination" (Some 7)) ∈ resolutions /\
    tasks s' !! 1 = None /\ size (workers s') = 2%nat.
Proof.
  assert (Hk : tasks_keyed crashed_pool)
    by (apply (bool_decide_unpack _); vm_compute; exact I).
  assert (Hwk : workers_keyed crashed_pool)
    by (apply (bool_decide_unpack _); vm_compute; exact I).
  assert (Hso : single_owner crashed_pool)
    by (apply (bool_decide_unpack _); vm_compute; exact I).
  assert (Hfr : fresh_pids crashed_pool)
    by (apply (bool_decide_unpack _); vm_compute; exact I).
  repeat (split; [assumption|]).
  destruct (update_workers_spec crashed_pool Hk Hwk Hso Hfr)
    as (s' & res & sp & Hrun & _ & _ & _ & Hexp & _ & _ & _ & _ & _ & Hsz & _).
  assert (Hw : dead_worker ∈ workers_values crashed_pool)
    by (apply elem_of_workers_values; exists 100; reflexivity).
  assert (Ht : late_task ∈ tasks_values crashed_pool)
    by (apply elem_of_tasks_values; exists 1; reflexivity).
  destruct (Hexp dead_worker late_task Hw eq_refl ltac:(discriminate) Ht eq_refl)
    as [Hin Hgone].
  exists s', res. split; [exact Hrun|]. split; [exact Hin|]. split; [exact Hgone|].
  assert (Hl : length (live_workers crashed_pool) = 1%nat) by (vm_compute; reflexivity).
  rewrite Hl in Hsz. simpl in Hsz. lia.
Defined.

(** ** The worker process *)

Lemma keeps_refl (getpid : Z) (w : World) : keeps getpid w w.
Proof. split; [done|]. exists []. by rewrite app_nil_r. Qed.

Lemma keeps_trans (getpid : Z) (w1 w2 w3 : World) :
  keeps getpid w1 w2 -> keeps getpid w2 w3 -> keeps getpid w1 w3.
Proof.
  intros [H1 [e1 He1]] [H2 [e2 He2]]. split; [auto|].
  exists (e1 ++ e2). by rewrite He2, He1, app_assoc.
Qed.

Lemma keeps_same (getpid : Z) (w w' : World) : trace w' = trace w -> keeps getpid w w'.
Proof. intros Ht. unfold keeps. rewrite Ht. split; [done|]. exists []. by rewrite app_nil_r. Qed.

Lemma keeps_log (getpid : Z) (e : wevent) (w w' : World) :
  trace w' = trace w ++ [e] ->
  (each_preceded (protocol getpid) (trace w) -> protocol getpid (trace w) e) ->
  keeps getpid w w'.
Proof.
  intros Ht He. split; [|by exists [e]].
  intros Hg. rewrite Ht. apply each_preceded_snoc; [done|by apply He].
Qed.

(** One [task_transaction]: whatever way it ends the trace keeps to the
    protocol, and when it returns, it returns a [NewTask] that was received
    and acknowledged under the lock. *)
Lemma task_transaction_spec (getpid : Z) (w : World) :
  keeps getpid w (wfinal (task_transaction getpid w)) /\
  forall m w', task_transaction getpid w = Done m w' ->
    exists id payload,
      m = NewTask id payload /\
      trace w' = trace w ++ [WAcquire; WRecv (NewTask id payload);
                             WSend (Acknowledgement getpid id); WRelease].
Proof.
  assert (Hacq : keeps getpid w (log WAcquire w)) by (by apply (keeps_log _ WAcquire)).
  assert (Hrel : forall w0 : World, keeps getpid w0 (log WRelease w0))
    by (intros w0; by apply (keeps_log _ WRelease)).
  unfold task_transaction, channel_lock, wbind, channel_poll0. simpl.
  destruct (poll0_replies w) as [|[[|]|n] l0]; simpl.
  - split; [exact Hacq|]. by intros m w' ?.
  - unfold channel_recv. simpl.
    destruct (recv_replies w) as [|[m|n] lr]; simpl.
    + split; [exact Hacq|]. by intros m w' ?.
    + set (w1 := log (WRecv m) (set_recv_replies lr (set_poll0_replies l0 (log WAcquire w)))).
      assert (H1 : keeps getpid w w1).
      { eapply keeps_trans; [exact Hacq|].
        apply (keeps_log _ (WRecv m)); [done|]. intros _. simpl. by eexists. }
      destruct m as [|id payload| |]; simpl;
        try (split; [eapply keeps_trans; [exact H1|apply Hrel]|by intros m w' ?]).
      unfold channel_send. simpl.
      destruct (send_replies w) as [|[[]|n] ls]; simpl.
      * split; [exact H1|]. by intros m w' ?.
      * split.
        -- eapply keeps_trans; [exact H1|]. eapply keeps_trans; [|apply Hrel].
           apply (keeps_log _ (WSend (Acknowledgement getpid id))); [done|].
           intros _. simpl. split; [done|]. exists (trace w), payload.
           by rewrite <- app_assoc.
        -- intros m w' [= <- <-]. exists id, payload. split; [done|].
           simpl. by rewrite <- !app_assoc.
      * split; [|by intros m w' ?].
        eapply keeps_trans; [exact H1|]. eapply keeps_trans; [|apply Hrel].
        by apply keeps_same.
    + split; [|by intros m w' ?].
      eapply keeps_trans; [exact Hacq|]. eapply keeps_trans; [|apply Hrel].
      by apply keeps_same.
  - split; [|by intros m w' ?].
    eapply keeps_trans; [exact Hacq|]. eapply keeps_trans; [|apply Hrel].
    by apply keeps_same.
  - split; [|by intros m w' ?].
    eapply keeps_trans; [exact Hacq|]. eapply keeps_trans; [|apply Hrel].
    by apply keeps_same.
Qed.

Lemma fetch_task_spec (getpid : Z) (fuel : nat) (w : World) :
  keeps getpid w (wfinal (fetch_task fuel getpid w)) /\
  forall m w', fetch_task fuel getpid w = Done (Some m) w' ->
    exists id payload pre,
      m = NewTask id payload /\
      trace w' = pre ++ [WAcquire; WRecv (NewTask id payload);
                         WSend (Acknowledgement getpid id); WRelease].
Proof.
  revert w. induction fuel as [|fuel IH]; intros w.
  - simpl. split; [apply keeps_refl|]. by intros m w' ?.
  - simpl. unfold wbind, channel_poll.
    destruct (poll_replies w) as [|[[|]|n] l]; simpl.
    + split; [apply keeps_refl|]. by intros m w' ?.
    + set (w1 := set_poll_replies l w).
      assert (H1 : keeps getpid w w1) by (by apply keeps_same).
      destruct (task_transaction_spec getpid w1) as [Hk Hdone].
      assert (H2 : keeps getpid w (wfinal (task_transaction getpid w1)))
        by (eapply keeps_trans; [exact H1|exact Hk]).
      destruct (task_transaction getpid w1) as [m w2|e w2|w2|c w2|w2]; simpl in *;
        try (split; [exact H2|by intros ? ? ?]).
      * split; [exact H2|]. intros m' w' [= <- <-].
        destruct (Hdone m w2 eq_refl) as (id & payload & -> & Ht).
        by exists id, payload, (trace w1).
      * destruct e; simpl; try (split; [exact H2|by intros ? ? ?]).
        destruct (IH w2) as [Hk2 Hdone2]. split; [|exact Hdone2].
        eapply keeps_trans; [exact H2|exact Hk2].
    + split; [by apply keeps_same|]. by intros m w' ?.
    + split; [by apply keeps_same|]. by intros m w' ?.
Qed.

Lemma worker_loop_spec (getpid : Z) (fuel : nat) (limit counter : Z) (w : World) :
  keeps getpid w (wfinal (worker_loop fuel getpid limit counter w)).
Proof.
  revert counter w. induction fuel as [|fuel IH]; intros counter w.
  - simpl. apply keeps_refl.
  - cbn [worker_loop].
    destruct ((limit =? 0) || (counter <? limit)); [|apply keeps_refl].
    unfold wbind at 1.
    destruct (fetch_task_spec getpid (S fuel) w) as [Hk Hdone].
    destruct (fetch_task (S fuel) getpid w) as [task w1|e w1|w1|c w1|w1];
      simpl in Hk; try exact Hk.
    destruct task as [m|]; [|exact Hk].
    destruct (Hdone m w1 eq_refl) as (id & payload & pre & -> & Ht).
    unfold wbind at 1. simpl.
    destruct payload as [p|p']; [|exact Hk].
    unfold wbind at 1. simpl. unfold execute.
    set (w2 := log (WExecute p) w1).
    assert (H2 : keeps getpid w w2).
    { eapply keeps_trans; [exact Hk|]. apply (keeps_log _ (WExecute p)); [done|].
      intros _. simpl. exists pre, id. exact Ht. }
    destruct (execute_replies w2) as [|r lx]; [exact H2|].
    simpl. unfold wbind at 1. simpl. unfold wbind at 1.
    unfold send_results, channel_send. simpl.
    destruct (send_replies w1) as [|[[]|n] ls]; simpl.
    + eapply keeps_trans; [exact H2|]. by apply keeps_same.
    + eapply keeps_trans; [|apply IH].
      eapply keeps_trans; [exact H2|].
      apply (keeps_log _ (WSend (Results id r))); [done|].
      intros _. simpl. exists pre, p. rewrite Ht. by rewrite <- app_assoc.
    + eapply keeps_trans; [exact H2|]. by apply keeps_same.
Qed.

Lemma worker_process_spec (params : WorkerParameters) (getpid : Z) (fuel : nat) (w : World) :
  keeps getpid w (wfinal (worker_process params getpid fuel w)).
Proof.
  unfold worker_process, wbind.
  destruct (initializer params) as [[|]|]; simpl; try apply keeps_refl.
  - pose proof (worker_loop_spec getpid fuel (task_limit params) 0 w) as H.
    destruct (worker_loop fuel getpid (task_limit params) 0 w) as [[] w1|e w1|w1|c w1|w1];
      simpl in *; try exact H.
    + by destruct (deinitializer params) as [[|]|].
    + by destruct e as [|[|]| |].
  - pose proof (worker_loop_spec getpid fuel (task_limit params) 0 w) as H.
    destruct (worker_loop fuel getpid (task_limit params) 0 w) as [[] w1|e w1|w1|c w1|w1];
      simpl in *; try exact H.
    + by destruct (deinitializer params) as [[|]|].
    + by destruct e as [|[|]| |].
Qed.

(** A worker that finds a task waiting and whose calls all go through
    claims it, runs it and sends its results, in this order. *)
Lemma worker_process_round (params : WorkerParameters) (getpid : Z) (fuel : nat)
    (id : Z) (p : payload) (r : outcome)
    (polls polls0 : list (reply bool)) (recvs : list (reply message))
    (sends : list (reply unit)) (execs : list outcome) :
  initializer params <> Some false ->
  task_limit params = 0 \/ 0 < task_limit params ->
  exists rest,
    trace (wfinal (worker_process params getpid (S fuel)
             (mkWorld (Returns true :: polls) (Returns true :: polls0)
                      (Returns (NewTask id (MPayload p)) :: recvs)
                      (Returns tt :: Returns tt :: sends) (r :: execs) []))) =
    claimed_round getpid id p r ++ rest.
Proof.
  intros Hinit Hlimit.
  set (w1 := mkWorld polls polls0 recvs sends execs (claimed_round getpid id p r)).
  set (c := if task_limit params =? 0 then 0 else 0 + 1).
  assert (Hloop : forall w0,
            w0 = mkWorld (Returns true :: polls) (Returns true :: polls0)
                   (Returns (NewTask id (MPayload p)) :: recvs)
                   (Returns tt :: Returns tt :: sends) (r :: execs) [] ->
            worker_loop (S fuel) getpid (task_limit params) 0 w0 =
            worker_loop fuel getpid (task_limit params) c w1).
  { intros w0 ->. cbn [worker_loop].
    assert (Hc : (task_limit params =? 0) || (0 <? task_limit params) = true).
    { destruct Hlimit as [->|Hpos]; [done|].
      apply orb_true_iff. right. by apply Z.ltb_lt. }
    rewrite Hc. reflexivity. }
  pose proof (worker_loop_spec getpid fuel (task_limit params) c w1) as [_ [ext Hext]].
  exists ext. unfold worker_process, wbind.
  assert (Hrun : run_hook (initializer params)
            (mkWorld (Returns true :: polls) (Returns true :: polls0)
                     (Returns (NewTask id (MPayload p)) :: recvs)
                     (Returns tt :: Returns tt :: sends) (r :: execs) []) =
          Done tt (mkWorld (Returns true :: polls) (Returns true :: polls0)
                     (Returns (NewTask id (MPayload p)) :: recvs)
                     (Returns tt :: Returns tt :: sends) (r :: execs) [])).
  { destruct (initializer params) as [[|]|]; done. }
  rewrite Hrun, (Hloop _ eq_refl).
  destruct (worker_loop fuel getpid (task_limit params) c w1) as [[] w2|e w2|w2|c2 w2|w2];
    simpl in *; try exact Hext.
  - by destruct (deinitializer params) as [[|]|].
  - by destruct e as [|[|]| |].
Qed.

(** C8. In the trace of a worker process, whatever the channel and the
    payloads answer and however the process ends: every acknowledgement is
    sent with the pid of the worker, under the channel lock, right after the
    task it names was received; every payload is executed right after the
    acknowledgement of its task was sent and the lock left; every [Results]
    message is sent right after the payload of its task was executed.  So
    the acknowledgement of a task comes before its execution, and its
    results after it.  And a worker that finds a task waiting, with calls
    that all go through, does send the acknowledgement, run the payload and
    send the results, in this order. *)
Theorem worker_acknowledges_before_results
    (params : WorkerParameters) (getpid : Z) (fuel : nat) (w : World) :
  trace w = [] ->
  (forall pre worker id post,
     trace (wfinal (worker_process params getpid fuel w)) =
       pre ++ WSend (Acknowledgement worker id) :: post ->
     worker = getpid /\
     exists pre' payload, pre = pre' ++ [WAcquire; WRecv (NewTask id payload)]) /\
  (forall pre p post,
     trace (wfinal (worker_process params getpid fuel w)) = pre ++ WExecute p :: post ->
     exists pre' id,
       pre = pre' ++ [WAcquire; WRecv (NewTask id (MPayload p));
                      WSend (Acknowledgement getpid id); WRelease]) /\
  (forall pre id results post,
     trace (wfinal (worker_process params getpid fuel w)) =
       pre ++ WSend (Results id results) :: post ->
     exists pre' p,
       pre = pre' ++ [WAcquire; WRecv (NewTask id (MPayload p));
                      WSend (Acknowledgement getpid id); WRelease; WExecute p]) /\
  (forall id p results polls polls0 recvs sends execs fuel',
     fuel = S fuel' ->
     w = mkWorld (Returns true :: polls) (Returns true :: polls0)
           (Returns (NewTask id (MPayload p)) :: recvs)
           (Returns tt :: Returns tt :: sends) (results :: execs) [] ->
     initializer params <> Some false ->
     task_limit params = 0 \/ 0 < task_limit params ->
     exists rest,
       trace (wfinal (worker_process params getpid fuel w)) =
       [WAcquire; WRecv (NewTask id (MPayload p)); WSend (Acknowledgement getpid id);
        WRelease; WExecute p; WSend (Results id results)] ++ rest).
Proof.
  intros Hnil.
  assert (Hgood : each_preceded (protocol getpid)
                    (trace (wfinal (worker_process params getpid fuel w)))).
  { destruct (worker_process_spec params getpid fuel w) as [H _].
    apply H. rewrite Hnil. apply each_preceded_nil. }
  split; [|split; [|split]].
  - intros pre worker id post Heq. apply (Hgood pre _ post Heq).
  - intros pre p post Heq. apply (Hgood pre _ post Heq).
  - intros pre id results post Heq. apply (Hgood pre _ post Heq).
  - intros id p results polls polls0 recvs sends execs fuel' -> -> Hinit Hlimit.
    by apply worker_process_round.
Qed.

Lemma worker_acknowledges_before_results_witness :
  trace one_task_world = [] /\
  trace (wfinal (worker_process plain_parameters 100 5 one_task_world)) =
    [WAcquire; WRecv (NewTask 1 (MPayload sample_payload));
     WSend (Acknowledgement 100 1); WRelease; WExecute sample_payload;
     WSend (Results 1 (Value 7))] /\
  forall pre id results post,
    trace (wfinal (worker_process plain_parameters 100 5 one_task_world)) =
      pre ++ WSend (Results id results) :: post ->
    exists pre' p,
      pre = pre' ++ [WAcquire; WRecv (NewTask id (MPayload p));
                     WSend (Acknowledgement 100 id); WRelease; WExecute p].
Proof.
  split; [reflexivity|]. split; [reflexivity|].
  apply (worker_acknowledges_before_results plain_parameters 100 5 one_task_world eq_refl).
Defined.

(** * Further properties of the managers *)

(** ** Stopping workers *)

Lemma for_each_fmap {A B} (f : A -> B) (l : list A) (body : B -> M unit) (s : Pool) :
  for_each (f <$> l) body s = for_each l (fun x => body (f x)) s.
Proof.
  revert s. induction l as [|x l IH]; intros s; [done|].
  rewrite fmap_cons, !for_each_cons. destruct (body (f x) s); [apply IH|done].
Qed.

Lemma stop_events_from (ws : gmap Z Worker) (pids : list Z) (w : Worker) :
  Stop w ∈ stop_events ws pids -> exists p, p ∈ pids /\ ws !! p = Some w.
Proof.
  revert ws. induction pids as [|p pids IH]; intros ws Hin.
  - by apply elem_of_nil in Hin.
  - simpl in Hin. destruct (ws !! p) as [w0|] eqn:Hp.
    + apply elem_of_cons in Hin as [?|Hin]; [discriminate|].
      apply elem_of_cons in Hin as [Heq|Hin].
      * injection Heq as ->. exists p. split; [apply list_elem_of_here|done].
      * apply elem_of_cons in Hin as [?|Hin]; [discriminate|].
        destruct (IH _ Hin) as (p' & Hp' & Hl).
        apply lookup_delete_Some in Hl as [_ Hl].
        exists p'. split; [by apply list_elem_of_further|done].
    + apply elem_of_cons in Hin as [?|Hin]; [discriminate|].
      apply elem_of_cons in Hin as [?|Hin]; [discriminate|].
      destruct (IH _ Hin) as (p' & Hp' & Hl).
      exists p'. split; [by apply list_elem_of_further|done].
Qed.

Lemma elem_of_stopped (evs : list event) (w : Worker) :
  w ∈ stopped evs <-> Stop w ∈ evs.
Proof.
  unfold stopped. rewrite list_elem_of_omap. split.
  - intros (e & Hin & He). destruct e; try discriminate. by injection He as ->.
  - intros Hin. by exists (Stop w).
Qed.

(** No worker is passed to [stop] twice, when each sits under its pid. *)
Lemma stop_events_NoDup (ws : gmap Z Worker) (pids : list Z) :
  map_Forall (fun k w => pid w = k) ws -> NoDup (stopped (stop_events ws pids)).
Proof.
  revert ws. induction pids as [|p pids IH]; intros ws Hk; [constructor|].
  simpl. destruct (ws !! p) as [w0|] eqn:Hp; simpl.
  - apply NoDup_cons. split; [|by apply IH, map_Forall_delete].
    intros Hin%elem_of_stopped%stop_events_from. destruct Hin as (p' & _ & Hl).
    apply lookup_delete_Some in Hl as [Hne Hl].
    apply Hk in Hl. apply Hk in Hp. congruence.
  - by apply IH.
Qed.

(** X1. [stop_worker] never raises on a pid.  It takes the worker out of
    the table and passes it to [stop] between taking and leaving the channel
    lock; when no worker has this pid it only takes and leaves the lock.  A
    second call on the same pid therefore stops nothing. *)
Theorem stop_worker_twice (s : Pool) (p : Z) :
  exists s1 s2,
    stop_worker (MWorker p) s = Ok tt s1 /\
    stop_worker (MWorker p) s1 = Ok tt s2 /\
    workers s1 = delete p (workers s) /\ workers s2 = workers s1 /\
    tasks s2 = tasks s /\
    events s1 = events s ++
      match workers s !! p with
      | Some w => [LockAcquire; Stop w; LockRelease]
      | None => [LockAcquire; LockRelease]
      end /\
    events s2 = events s1 ++ [LockAcquire; LockRelease].
Proof.
  pose proof (for_each_stop_worker [p; p] s) as H2.
  pose proof (for_each_stop_worker [p] s) as H1.
  simpl in H1, H2. unfold bind, ret in H1, H2.
  destruct (stop_worker (MWorker p) s) as [[] s1|e s1]; [|discriminate].
  injection H1 as ->.
  destruct (stop_worker (MWorker p) _) as [[] s2|e s2] eqn:Hs2; [|discriminate].
  injection H2 as ->.
  eexists _, _. split; [reflexivity|]. split; [exact Hs2|]. simpl.
  unfold remove_workers. simpl.
  split; [done|]. split; [by rewrite delete_delete_eq|]. split; [done|].
  rewrite lookup_delete_eq.
  destruct (workers s !! p) as [w|]; simpl;
    (split; [done|]); by rewrite <- !app_assoc.
Qed.

(** X2. [stop_workers], which is [PoolManager.stop], returns and leaves the
    worker table empty and the task table as it was; it passes every worker
    of the table to [stop], once, each under the channel lock, and does
    nothing else. *)
Theorem stop_workers_spec (s : Pool) :
  workers_keyed s ->
  exists s' ext,
    PoolManager_stop s = Ok tt s' /\
    workers s' = ∅ /\ tasks s' = tasks s /\
    events s' = events s ++ ext /\
    Forall (fun e => is_stop e = true) ext /\
    NoDup (stopped ext) /\
    forall w, w ∈ stopped ext <-> w ∈ workers_values s.
Proof.
  intros Hk. set (keys := (map_to_list (workers s)).*1).
  exists (mkPool (alive s) (task_queue s) (tasks s) (remove_workers keys (workers s))
            (workers_number s) (next_pid s) (clock s)
            (events s ++ stop_events (workers s) keys)),
         (stop_events (workers s) keys).
  split.
  { unfold PoolManager_stop, stop_workers. fold keys.
    rewrite <- (for_each_fmap MWorker keys stop_worker). apply for_each_stop_worker. }
  simpl. split; [|split; [done|split; [done|split; [apply stop_events_stop|split]]]].
  - apply map_eq. intros k. rewrite remove_workers_lookup, lookup_empty.
    destruct (decide (k ∈ keys)) as [|Hn]; [done|].
    destruct (workers s !! k) as [w|] eqn:Hw; [|done].
    exfalso. apply Hn. unfold keys. apply list_elem_of_fmap.
    exists (k, w). split; [done|]. by apply elem_of_map_to_list.
  - by apply stop_events_NoDup.
  - intros w. rewrite elem_of_stopped, elem_of_workers_values. split.
    + intros (p & _ & Hp)%stop_events_from. by exists p.
    + intros [k Hw]. apply (stop_events_Stop _ _ k); [|done].
      unfold keys. apply list_elem_of_fmap.
      exists (k, w). split; [done|]. by apply elem_of_map_to_list.
Qed.

Lemma stop_workers_spec_witness :
  workers_keyed crashed_pool /\
  exists s', PoolManager_stop crashed_pool = Ok tt s' /\ workers s' = ∅.
Proof.
  assert (Hk : workers_keyed crashed_pool)
    by (apply (bool_decide_unpack _); vm_compute; exact I).
  split; [exact Hk|].
  destruct (stop_workers_spec crashed_pool Hk) as (s' & ext & Hrun & Hw & _).
  exists s'. split; [exact Hrun|exact Hw].
Defined.

(** ** Spawning and inspecting workers *)

Lemma new_worker_loop_more (l : list nat) (s s' : Pool) :
  for_each l (fun _ => new_worker) s = Ok tt s' ->
  workers_number s' = workers_number s /\ clock s' = clock s /\
  alive s' = alive s /\ task_queue s' = task_queue s /\
  (workers_keyed s -> workers_keyed s') /\
  (fresh_pids s -> fresh_pids s').
Proof.
  revert s. induction l as [|x l IH]; intros s Hrun.
  - simpl in Hrun. by injection Hrun as <-.
  - rewrite for_each_cons in Hrun. simpl in Hrun.
    apply IH in Hrun as (Hn & Hc & Ha & Hq & Hk & Hf). simpl in *.
    repeat (split; [done|]). split.
    + intros Hks. apply Hk. unfold workers_keyed. simpl.
      by apply map_Forall_insert_2.
    + intros Hfs. apply Hf. unfold fresh_pids. simpl.
      apply map_Forall_insert_2; [lia|].
      eapply map_Forall_impl; [exact Hfs|]. simpl. intros; lia.
Qed.

(** X3. [create_workers], which is [PoolManager.start], spawns running
    workers until the table has [workers_number] of them, and none when it
    already has as many or more; the workers that were in the table stay as
    they were.  Calling it again right away spawns nothing. *)
Theorem create_workers_spec (s : Pool) :
  fresh_pids s ->
  exists s' spawns,
    PoolManager_start s = Ok tt s' /\
    tasks s' = tasks s /\
    Z.of_nat (size (workers s')) = Z.max (Z.of_nat (size (workers s))) (workers_number s) /\
    (forall k, k < next_pid s -> workers s' !! k = workers s !! k) /\
    events s' = events s ++ spawns /\
    Forall (fun e => is_spawn e = true) spawns /\
    length spawns = Z.to_nat (workers_number s - Z.of_nat (size (workers s))) /\
    (all_alive s -> all_alive s') /\
    create_workers s' = Ok tt s'.
Proof.
  intros Hfresh.
  set (n := Z.to_nat (workers_number s - Z.of_nat (size (workers s)))).
  destruct (new_worker_loop (seq 0 n) s Hfresh)
    as (s' & ext & Hrun & Ht & Hsz & Hal & Hold & Hev & Hsp & Hlen).
  destruct (new_worker_loop_more _ _ _ Hrun) as (Hn & _).
  rewrite length_seq in Hsz, Hlen.
  exists s', ext. split; [exact Hrun|]. split; [exact Ht|].
  split; [rewrite Hsz; unfold n; lia|]. split; [exact Hold|].
  split; [exact Hev|]. split; [exact Hsp|]. split; [exact Hlen|].
  split; [exact Hal|].
  unfold create_workers. rewrite Hn, Hsz.
  replace (Z.to_nat (workers_number s - Z.of_nat (size (workers s) + n))) with 0%nat
    by (unfold n; lia).
  reflexivity.
Qed.

Lemma create_workers_spec_witness :
  fresh_pids empty_pool /\
  exists s', PoolManager_start empty_pool = Ok tt s' /\ size (workers s') = 1%nat.
Proof.
  assert (Hf : fresh_pids empty_pool)
    by (apply (bool_decide_unpack _); vm_compute; exact I).
  split; [exact Hf|].
  destruct (create_workers_spec empty_pool Hf) as (s' & sp & Hrun & _ & Hsz & _).
  exists s'. split; [exact Hrun|]. simpl in Hsz. rewrite map_size_empty in Hsz. lia.
Defined.

(** X4. [inspect_workers] takes out of the table exactly the workers that
    are not alive and leaves the others, the task table and the events as
    they were.  It reports the pid and exit code of those among the dead whose
    exit code is not 0, each pid once: a worker that ended with code 0 leaves
    the table unreported.  A second inspection right away reports nothing
    and changes nothing. *)
Theorem inspect_workers_spec (s : Pool) :
  workers_keyed s ->
  exists exps s',
    inspect_workers s = Ok exps s' /\
    tasks s' = tasks s /\ events s' = events s /\
    (forall k, workers s' !! k =
       match workers s !! k with
       | Some w => if is_alive w then Some w else None
       | None => None
       end) /\
    (forall p code, (p, code) ∈ exps <->
       exists w, workers s !! p = Some w /\ is_alive w = false /\
                 exitcode w <> Some 0 /\ code = exitcode w) /\
    NoDup exps.*1 /\
    inspect_workers s' = Ok [] s'.
Proof.
  intros Hk.
  set (ws1 := remove_workers (pid <$> expired_workers s) (workers s)).
  exists (expirations s), (set_workers ws1 s).
  split; [by apply inspect_workers_run|]. split; [done|]. split; [done|].
  split; [intros k; by apply evicted_lookup|].
  split; [|split; [by apply expirations_NoDup|]].
  - intros p code. rewrite elem_of_expirations. split.
    + intros (w & Hin & Hd & Hab & -> & ->). exists w.
      split; [by apply workers_keyed_lookup|done].
    + intros (w & Hw & Hd & Hab & ->). exists w.
      split; [apply elem_of_workers_values; by exists p|].
      repeat (split; [done|]). split; [|done]. symmetry. by apply (Hk p w).
  - assert (Hnone : expired_workers (set_workers ws1 s) = []).
    { unfold expired_workers. apply filter_none, Forall_forall.
      intros w [k Hw]%elem_of_workers_values. simpl in Hw. unfold ws1 in Hw.
      rewrite (evicted_lookup s k Hk) in Hw.
      destruct (workers s !! k) as [w'|]; [|done].
      destruct (is_alive w') eqn:Ha; [|done]. injection Hw as <-.
      rewrite Ha. simpl. by intros []. }
    unfold inspect_workers. fold (expired_workers (set_workers ws1 s)).
    rewrite Hnone. reflexivity.
Qed.

Lemma inspect_workers_spec_witness :
  workers_keyed crashed_pool /\
  exists s', inspect_workers crashed_pool = Ok [(100, Some 7)] s' /\
             workers s' !! 100 = None.
Proof.
  assert (Hk : workers_keyed crashed_pool)
    by (apply (bool_decide_unpack _); vm_compute; exact I).
  split; [exact Hk|].
  destruct (inspect_workers_spec crashed_pool Hk) as (exps & s' & Hrun & _ & _ & Hw & _).
  exists s'. split.
  - rewrite Hrun. vm_compute in Hrun. injection Hrun as <- _. reflexivity.
  - rewrite Hw. reflexivity.
Defined.

(** ** Registration, start and completion together *)

(** X5. Scheduling a task and then completing it under its number resolves
    that very task, whatever was in the table under the number before: the
    events are the [NewTask] message, [set_results] on the task and the
    callback, and the number is no longer in the table, so that completing it
    once more changes nothing. *)
Theorem schedule_then_task_done (s : Pool) (task : Task) (results : outcome) :
  exists s',
    (schedule task ;;; task_done (number task) results) s = Ok tt s' /\
    tasks s' = delete (number task) (tasks s) /\
    events s' = events s ++ [Send (NewTask (number task) (_metadata task));
                             SetResults task results; QueueTaskDone] /\
    task_done (number task) results s' = Ok tt s'.
Proof.
  unfold bind, schedule, bind, register, dispatch, emit, task_done,
    try_except_else, tasks_pop. simpl.
  rewrite lookup_insert_eq. simpl.
  eexists. split; [reflexivity|]. simpl.
  split; [by rewrite delete_insert_eq|].
  split; [by rewrite <- !app_assoc|].
  by rewrite lookup_delete_eq.
Qed.

(** X6. The timeout of a task runs from its acknowledgement: once
    [task_start] has stamped the task at a positive clock reading, the task
    is among the timed-out tasks of [inspect_tasks] exactly at the readings
    that are more than its (positive) timeout later; as long as it is not
    started it is not timed out at any reading. *)
Theorem timeout_runs_from_start
    (s : Pool) (task_id worker_id now : Z) (task : Task) (tm : Z) :
  tasks s !! task_id = Some task ->
  timeout task = Some tm -> 0 < tm -> 0 < clock s ->
  exists s1,
    task_start task_id worker_id s = Ok tt s1 /\
    tasks s1 !! task_id = Some (stamp worker_id (clock s) task) /\
    (stamp worker_id (clock s) task ∈ timed_out (set_clock now s1) <->
     now - clock s > tm) /\
    (started task = false -> task ∉ timed_out (set_clock now s)).
Proof.
  intros Ht Htm Hpos Hclock.
  unfold task_start, bind, tasks_getitem. rewrite Ht.
  eexists. split; [reflexivity|]. simpl.
  split; [apply lookup_insert_eq|]. split.
  - unfold timed_out. rewrite list_elem_of_filter, elem_of_tasks_values. simpl.
    unfold has_timeout, started. simpl. rewrite Htm.
    assert (Hne : (tm =? 0) = false) by (apply Z.eqb_neq; lia).
    rewrite Hne, (bool_decide_eq_true_2 (0 < clock s)) by done. simpl.
    split.
    + intros [Hgt _]. by apply bool_decide_unpack in Hgt.
    + intros Hgt. split; [by apply bool_decide_pack|].
      exists task_id. apply lookup_insert_eq.
  - intros Hns. unfold timed_out. rewrite list_elem_of_filter.
    intros [Hto _]. apply Is_true_true, has_timeout_started in Hto. congruence.
Qed.

Lemma timeout_runs_from_start_witness :
  exists s1,
    task_start 1 100 (final (schedule fresh_task empty_pool)) = Ok tt s1 /\
    (stamp 100 100 fresh_task ∈ timed_out (set_clock 106 s1) <-> 106 - 100 > 5).
Proof.
  destruct (timeout_runs_from_start (final (schedule fresh_task empty_pool))
              1 100 106 fresh_task 5 eq_refl eq_refl ltac:(lia) ltac:(simpl; lia))
    as (s1 & Hrun & _ & Hiff & _).
  exists s1. split; [exact Hrun|exact Hiff].
Defined.

(** ** Invariants of the task table over runs *)

(** X7. Over any run of the coordinator every task of the table stays
    filed under its own number. *)
Theorem run_keeps_tasks_keyed (acts : list action) (pc : scheduler_pc) (s : Pool) :
  tasks_keyed s -> tasks_keyed (run acts (pc, s)).2.
Proof.
  intros Hk.
  apply (run_respects (once_step 0) (once_step_trans 0) (once_step_quiet 0)
           (once_step_task_done 0) (once_step_task_start 0)
           (fun t s => once_step_frame 0 s _ eq_refl eq_refl)
           (once_step_cancel 0)
           (fun s => once_step_frame 0 s _ eq_refl eq_refl)
           (once_step_turn 0) acts pc s Hk).
Qed.

Lemma run_keeps_tasks_keyed_witness :
  tasks_keyed (run complete_twice (AtWhile, empty_pool)).2.
Proof.
  apply (run_keeps_tasks_keyed complete_twice AtWhile empty_pool).
  apply (bool_decide_unpack _). vm_compute. exact I.
Defined.

Section TaskInvariant.
Variable P : Task -> Prop.
Hypothesis P_stamp : forall worker_id now t, P t -> P (stamp worker_id now t).
Hypothesis P_cancel : forall t, P t -> P (cancel t).

Lemma keeps_all_trans (s1 s2 s3 : Pool) :
  keeps_all P s1 s2 -> keeps_all P s2 s3 -> keeps_all P s1 s3.
Proof. unfold keeps_all. auto. Qed.

Lemma keeps_all_frame (s s' : Pool) :
  tasks s' = tasks s -> task_queue s' = task_queue s -> keeps_all P s s'.
Proof. intros Ht Hq. unfold keeps_all, all_tasks. by rewrite Ht, Hq. Qed.

Lemma keeps_all_quiet (s s' : Pool) : quiet_step s s' -> keeps_all P s s'.
Proof. intros (Ht & Hq & _). by apply keeps_all_frame. Qed.

Lemma keeps_all_task_done (task_id : Z) (results : outcome) :
  respects (keeps_all P) (task_done task_id results).
Proof.
  intros s [Ht Hq]. unfold task_done, try_except_else, tasks_pop.
  destruct (tasks s !! task_id); simpl; [|done].
  split; [by apply map_Forall_delete|done].
Qed.

Lemma keeps_all_task_start (task_id worker_id : Z) :
  respects (keeps_all P) (task_start task_id worker_id).
Proof.
  intros s [Ht Hq]. unfold task_start, bind, tasks_getitem.
  destruct (tasks s !! task_id) as [t|] eqn:Hl; simpl; [|done].
  split; [|done]. apply map_Forall_insert_2; [|done].
  apply P_stamp. by apply (Ht task_id).
Qed.

Lemma keeps_all_exec (a : action) (pc : scheduler_pc) (s : Pool) :
  submits P a -> keeps_all P s (exec a (pc, s)).2.
Proof.
  intros Ha. destruct a as [|m| |t|n| |now|p code]; simpl.
  - destruct pc; simpl; try (by intros ?).
    destruct (task_queue s) as [|item rest] eqn:Hq; simpl; [by intros ?|].
    intros [Ht Hqs]. rewrite Hq in Hqs. apply Forall_cons in Hqs as [Hi Hr].
    unfold bind. simpl. destruct item as [t|]; simpl; [|done].
    destruct (cancelled t); simpl; [done|].
    split; [|done]. by apply map_Forall_insert_2.
  - apply (process_message_respects (keeps_all P) keeps_all_quiet
             keeps_all_task_done keeps_all_task_start).
  - apply (update_status_respects (keeps_all P) keeps_all_trans keeps_all_quiet
             keeps_all_task_done).
  - intros [Ht Hq]. split; [done|]. simpl. apply Forall_app. split; [done|].
    by constructor.
  - intros [Ht Hq]. split; simpl.
    + apply map_Forall_fmap. eapply map_Forall_impl; [exact Ht|].
      intros k t Hp. simpl. unfold cancel_numbered.
      destruct (decide _); [by apply P_cancel|done].
    + apply Forall_fmap. eapply Forall_impl; [exact Hq|].
      intros [t|] Hp; simpl; [|done]. unfold cancel_numbered.
      destruct (decide _); [by apply P_cancel|done].
  - intros [Ht Hq]. split; [done|]. simpl. apply Forall_app. split; [done|].
    by constructor.
  - by apply keeps_all_frame.
  - by apply keeps_all_frame.
Qed.

Lemma keeps_all_run (acts : list action) (pc : scheduler_pc) (s : Pool) :
  Forall (submits P) acts -> keeps_all P s (run acts (pc, s)).2.
Proof.
  revert pc s. induction acts as [|a acts IH]; intros pc s Hacts; [by intros ?|].
  apply Forall_cons in Hacts as [Ha Hacts].
  change (run (a :: acts) (pc, s)) with (run acts (exec a (pc, s))).
  pose proof (keeps_all_exec a pc s Ha) as H.
  destruct (exec a (pc, s)) as [pc' s']. simpl in H.
  eapply keeps_all_trans; [exact H|by apply IH].
Qed.
End TaskInvariant.

(** X8. Over any run of the coordinator in which callers submit sound
    tasks only, the tasks of the table and of the queue stay sound: a
    started task carries the pid of a worker in [_metadata], which
    [task_start] writes together with the timestamp, and no timeout becomes
    negative. *)
Theorem run_keeps_tasks_sound (acts : list action) (pc : scheduler_pc) (s : Pool) :
  Forall (submits sound_task) acts ->
  all_tasks sound_task s ->
  all_tasks sound_task (run acts (pc, s)).2 /\
  started_owned (run acts (pc, s)).2 /\ timeouts_ok (run acts (pc, s)).2.
Proof.
  intros Hacts Hs.
  assert (H : all_tasks sound_task (run acts (pc, s)).2).
  { apply (keeps_all_run sound_task); [| |done|done].
    - intros w now t [Ho Hto]. split; [|done]. intros _. by eexists.
    - intros t [Ho Hto]. split; [|done]. exact Ho. }
  split; [exact H|]. destruct H as [Ht _]. split.
  - eapply map_Forall_impl; [exact Ht|]. by intros k t [? _].
  - eapply map_Forall_impl; [exact Ht|]. by intros k t [_ ?].
Qed.

Lemma run_keeps_tasks_sound_witness :
  started_owned (run complete_twice (AtWhile, empty_pool)).2 /\
  timeouts_ok (run complete_twice (AtWhile, empty_pool)).2.
Proof.
  apply (run_keeps_tasks_sound complete_twice AtWhile empty_pool).
  - unfold complete_twice. apply Forall_cons. split; [|by repeat constructor].
    split.
    + intros Hs. vm_compute in Hs. discriminate.
    + vm_compute. discriminate.
  - split; [apply map_Forall_empty|constructor].
Defined.

(** ** Invariants of the worker table over runs *)















(** ** A status turn that finds nothing new *)

Lemma update_status_stable (s : Pool) :
  timed_out s = [] -> cancelled_running s = [] -> expired_workers s = [] ->
  workers_number s <= Z.of_nat (size (workers s)) ->
  update_status s = Ok tt s.
Proof.
  intros Ht Hc He Hn.
  unfold update_status, bind at 1, update_tasks, bind at 1, inspect_tasks.
  fold (timed_out s). fold (cancelled_running s). rewrite Ht, Hc. simpl.
  unfold bind, ret. simpl.
  unfold update_workers, bind at 1, inspect_workers.
  fold (expired_workers s). rewrite He. simpl. unfold bind, ret. simpl.
  unfold create_workers. simpl.
  replace (Z.to_nat (workers_number s - Z.of_nat (size (workers s)))) with 0%nat by lia.
  simpl. unfold ret. by destruct s.
Qed.

(** The loop over the expirations always returns; it leaves everything but
    the task table and the events alone and adds no task. *)
Lemma expirations_loop_frame (exps : list (Z * option Z)) (s : Pool) :
  exists s',
    for_each exps handle_worker_expiration s = Ok tt s' /\
    workers s' = workers s /\ next_pid s' = next_pid s /\
    workers_number s' = workers_number s /\ clock s' = clock s /\
    forall k t, tasks s' !! k = Some t -> tasks s !! k = Some t.
Proof.
  revert s. induction exps as [|[p code] exps IH]; intros s.
  - exists s. by repeat split.
  - rewrite for_each_cons.
    unfold handle_worker_expiration, try_except_else.
    pose proof (worker_id_lookup_result s p) as Hl.
    destruct (worker_id_lookup p s) as [t s0|e s0].
    + destruct Hl as (-> & _ & _).
      destruct (task_done_spec s (number t) (ProcessExpired "Abnormal termination" code))
        as (s1 & Hrun & Ht1 & Hw1 & _).
      assert (Hfr : next_pid s1 = next_pid s /\ workers_number s1 = workers_number s /\
                    clock s1 = clock s).
      { revert Hrun. unfold task_done, try_except_else, tasks_pop.
        destruct (tasks s !! number t); simpl; by intros [= <-]. }
      destruct Hfr as (Hn1 & Hwn1 & Hc1). rewrite Hrun.
      destruct (IH s1) as (s' & Hrun' & Hw & Hn & Hwn & Hc & Hsub).
      exists s'. split; [exact Hrun'|]. repeat (split; [congruence|]).
      intros k t' Hk. apply Hsub in Hk. rewrite Ht1 in Hk.
      by apply lookup_delete_Some in Hk as [_ ?].
    + destruct Hl as (-> & -> & _). simpl. apply IH.
Qed.

Lemma remove_workers_subset (pids : list Z) (ws : gmap Z Worker) (k : Z) (w : Worker) :
  remove_workers pids ws !! k = Some w -> ws !! k = Some w.
Proof. rewrite remove_workers_lookup. by destruct (decide _). Qed.

(** X10. A status turn returns and leaves tables that an immediate second
    status turn does not change: no task of the table is timed out or
    started and cancelled any more, all workers of the table are alive, and
    there are at least [workers_number] of them. *)
Theorem update_status_idempotent (s : Pool) :
  tasks_keyed s -> started_owned s -> workers_keyed s -> fresh_pids s ->
  exists s',
    update_status s = Ok tt s' /\
    update_status s' = Ok tt s' /\
    timed_out s' = [] /\ cancelled_running s' = [] /\
    all_alive s' /\ workers_number s <= Z.of_nat (size (workers s')).
Proof.
  intros Hk Hown Hwk Hfresh.
  set (TC := timed_out s ++ cancelled_running s).
  (* update_tasks *)
  pose proof (update_tasks_run s Hown) as Hrun1. fold TC in Hrun1.
  set (s1 := mkPool (alive s) (task_queue s) (remove_tasks TC (tasks s))
               (remove_workers (omap worker_of TC) (workers s))
               (workers_number s) (next_pid s) (clock s)
               (events s
                  ++ resolve_events (tasks s) (timed_out s) (TimeoutError "Timeout")
                  ++ resolve_events (remove_tasks (timed_out s) (tasks s))
                       (cancelled_running s) (TaskCancelled "Cancelled")
                  ++ stop_events (workers s) (omap worker_of TC))) in Hrun1.
  assert (Hwk1 : workers_keyed s1).
  { intros k w Hw. simpl in Hw. apply remove_workers_subset in Hw. by apply (Hwk k w). }
  assert (Hfresh1 : fresh_pids s1).
  { intros k w Hw. simpl in Hw. apply remove_workers_subset in Hw. by apply (Hfresh k w). }
  (* inspect_workers *)
  pose proof (inspect_workers_run s1 Hwk1) as Hrun2.
  set (s2 := set_workers (remove_workers (pid <$> expired_workers s1) (workers s1)) s1)
    in Hrun2.
  (* expirations *)
  destruct (expirations_loop_frame (expirations s1) s2)
    as (s3 & Hrun3 & Hw3 & Hn3 & Hwn3 & Hc3 & Hsub3).
  assert (Hfresh3 : fresh_pids s3).
  { unfold fresh_pids. rewrite Hw3, Hn3. intros k w Hw.
    change (workers s2)
      with (remove_workers (pid <$> expired_workers s1) (workers s1)) in Hw.
    apply remove_workers_subset in Hw. by apply (Hfresh1 k w). }
  assert (Halive3 : all_alive s3).
  { unfold all_alive. rewrite Hw3. intros k w Hw.
    change (workers s2)
      with (remove_workers (pid <$> expired_workers s1) (workers s1)) in Hw.
    rewrite (evicted_lookup s1 k Hwk1) in Hw.
    destruct (workers s1 !! k) as [w'|]; [|done].
    destruct (is_alive w') eqn:Ha; [|done]. by injection Hw as <-. }
  (* create_workers *)
  set (n := Z.to_nat (workers_number s3 - Z.of_nat (size (workers s3)))).
  destruct (new_worker_loop (seq 0 n) s3 Hfresh3)
    as (s4 & sp & Hrun4 & Ht4 & Hsz4 & Hal4 & _ & _ & _ & _).
  destruct (new_worker_loop_more _ _ _ Hrun4) as (Hwn4 & Hc4 & _).
  rewrite length_seq in Hsz4.
  assert (Hrun : update_status s = Ok tt s4).
  { unfold update_status, bind at 1. rewrite Hrun1.
    unfold update_workers, bind at 1. rewrite Hrun2.
    unfold bind at 1. rewrite Hrun3. unfold create_workers. fold n. exact Hrun4. }
  (* what is left in the task table *)
  assert (Hleft : forall t, t ∈ tasks_values s4 ->
            t ∈ tasks_values s /\ (t ∉ timed_out s) /\ (t ∉ cancelled_running s)).
  { intros t [k Hkt]%elem_of_tasks_values. rewrite Ht4 in Hkt.
    apply Hsub3 in Hkt. simpl in Hkt. rewrite remove_tasks_lookup in Hkt.
    destruct (decide (k ∈ number <$> TC)) as [|Hnot]; [done|].
    assert (Hin : t ∈ tasks_values s) by (apply elem_of_tasks_values; eauto).
    assert (Hnum : number t = k) by (by apply (Hk k t)).
    split; [done|]. split; intros Hbad; apply Hnot; rewrite <- Hnum;
      apply list_elem_of_fmap_2, elem_of_app; [by left|by right]. }
  assert (Hclock : clock s4 = clock s) by (rewrite Hc4, Hc3; done).
  assert (Hto : timed_out s4 = []).
  { unfold timed_out. apply filter_none, Forall_forall. intros t Hin Hh.
    destruct (Hleft t Hin) as (Hs & Hnt & _). apply Hnt.
    unfold timed_out. apply list_elem_of_filter. split; [|done].
    by rewrite <- Hclock. }
  assert (Hcr : cancelled_running s4 = []).
  { unfold cancelled_running. apply filter_none, Forall_forall. intros t Hin Hh.
    destruct (Hleft t Hin) as (Hs & _ & Hnc). apply Hnc.
    unfold cancelled_running. by apply list_elem_of_filter. }
  assert (Hal : all_alive s4) by (by apply Hal4).
  assert (Hex : expired_workers s4 = []).
  { unfold expired_workers. apply filter_none, Forall_forall.
    intros w [k Hw]%elem_of_workers_values. rewrite (Hal k w Hw). by intros []. }
  assert (Hsize : workers_number s <= Z.of_nat (size (workers s4))).
  { rewrite Hsz4. unfold n. rewrite Hwn3. simpl. lia. }
  exists s4. split; [exact Hrun|]. split.
  - apply update_status_stable; try done. rewrite Hwn4, Hwn3. exact Hsize.
  - done.
Qed.

Lemma update_status_idempotent_witness :
  exists s', update_status crashed_pool = Ok tt s' /\ update_status s' = Ok tt s'.
Proof.
  assert (Hk : tasks_keyed crashed_pool)
    by (apply (bool_decide_unpack _); vm_compute; exact I).
  assert (Hown : started_owned crashed_pool)
    by (apply (bool_decide_unpack _); vm_compute; exact I).
  assert (Hwk : workers_keyed crashed_pool)
    by (apply (bool_decide_unpack _); vm_compute; exact I).
  assert (Hfr : fresh_pids crashed_pool)
    by (apply (bool_decide_unpack _); vm_compute; exact I).
  destruct (update_status_idempotent crashed_pool Hk Hown Hwk Hfr)
    as (s' & H1 & H2 & _).
  exists s'. split; [exact H1|exact H2].
Defined.

(** ** After [Pool.stop] *)

Lemma sent_app (l1 l2 : list event) : sent (l1 ++ l2) = (sent l1 + sent l2)%nat.
Proof. unfold sent. by rewrite filter_app, length_app. Qed.

Lemma sent_silent (l : list event) :
  Forall (fun e => silent e = true) l -> sent l = 0%nat.
Proof.
  intros Hl. unfold sent. rewrite filter_none; [done|].
  eapply Forall_impl; [exact Hl|]. intros e ->. by intros [].
Qed.

Lemma mute_step_trans (s1 s2 s3 : Pool) :
  mute_step s1 s2 -> mute_step s2 s3 -> mute_step s1 s3.
Proof. intros [Ha1 Hs1] [Ha2 Hs2]. split; [auto|congruence]. Qed.

Lemma mute_step_frame (s s' : Pool) :
  (alive s = false -> alive s' = false) -> events s' = events s -> mute_step s s'.
Proof. intros Ha He. split; [done|by rewrite He]. Qed.

Lemma mute_step_quiet (s s' : Pool) : quiet_step s s' -> mute_step s s'.
Proof.
  intros (_ & _ & Ha & ext & He & Hq). split; [by rewrite Ha|].
  rewrite He, sent_app, (sent_silent ext); [lia|].
  eapply Forall_impl; [exact Hq|]. by intros [].
Qed.

Lemma mute_step_task_done (task_id : Z) (results : outcome) :
  respects mute_step (task_done task_id results).
Proof.
  intros s. unfold task_done, try_except_else, tasks_pop.
  destruct (tasks s !! task_id); simpl; [|by apply mute_step_frame].
  split; [done|]. simpl. rewrite <- app_assoc, sent_app. simpl.
  rewrite (sent_silent [_; _]); [lia|by repeat constructor].
Qed.

Lemma mute_step_task_start (task_id worker_id : Z) :
  respects mute_step (task_start task_id worker_id).
Proof.
  intros s. unfold task_start, bind, tasks_getitem.
  destruct (tasks s !! task_id); simpl; by apply mute_step_frame.
Qed.

Lemma exec_after_stop (a : action) (pc : scheduler_pc) (s : Pool) :
  alive s = false ->
  alive (exec a (pc, s)).2 = false /\
  (sent (events (exec a (pc, s)).2) + pending_get (exec a (pc, s)).1
   <= sent (events s) + pending_get pc)%nat.
Proof.
  intros Ha.
  assert (Hmute : forall s', mute_step s s' ->
            alive s' = false /\ (sent (events s') + pending_get pc
                                 <= sent (events s) + pending_get pc)%nat).
  { intros s' [Hal Hs]. split; [by apply Hal|lia]. }
  destruct a as [|m| |t|n| |now|p code].
  - simpl. destruct pc; simpl.
    + rewrite Ha. simpl. split; [done|lia].
    + destruct (task_queue s) as [|item rest]; simpl; [split; [done|lia]|].
      unfold bind. simpl. destruct item as [t|]; simpl;
        [destruct (cancelled t); simpl|]; (split; [done|]);
        rewrite <- ?app_assoc, sent_app; simpl; unfold sent at 2; simpl; lia.
    + split; [done|lia].
  - apply Hmute.
    apply (process_message_respects mute_step mute_step_quiet
             mute_step_task_done mute_step_task_start).
  - apply Hmute.
    apply (update_status_respects mute_step mute_step_trans mute_step_quiet
             mute_step_task_done).
  - apply Hmute. by apply mute_step_frame.
  - apply Hmute. by apply mute_step_frame.
  - apply Hmute. by apply mute_step_frame.
  - apply Hmute. by apply mute_step_frame.
  - apply Hmute. by apply mute_step_frame.
Qed.

(** X11. Once the pool is stopped ([alive] is false), the scheduler loop
    sends at most one more [NewTask], whatever the other threads and the
    callers do: one if it stands inside [get] (it had passed the test of its
    loop before the stop), none otherwise; nothing else sends on the pool
    channel. *)
Theorem at_most_one_dispatch_after_stop
    (acts : list action) (pc : scheduler_pc) (s : Pool) :
  alive s = false ->
  alive (run acts (pc, s)).2 = false /\
  (sent (events (run acts (pc, s)).2) <= sent (events s) + pending_get pc)%nat.
Proof.
  intros Ha.
  cut (alive (run acts (pc, s)).2 = false /\
       (sent (events (run acts (pc, s)).2) + pending_get (run acts (pc, s)).1
        <= sent (events s) + pending_get pc)%nat).
  { intros [? ?]. split; [done|lia]. }
  revert pc s Ha. induction acts as [|a acts IH]; intros pc s Ha.
  - simpl. split; [done|lia].
  - change (run (a :: acts) (pc, s)) with (run acts (exec a (pc, s))).
    destruct (exec_after_stop a pc s Ha) as [Ha1 Hle1].
    destruct (exec a (pc, s)) as [pc1 s1]. simpl in Ha1, Hle1.
    destruct (IH pc1 s1 Ha1) as [Ha2 Hle2]. split; [done|lia].
Qed.

Lemma at_most_one_dispatch_after_stop_witness :
  (sent (events (run (stop_before_get ++ [SchedulerTurn; SchedulerTurn; StatusTurn])
                     (AtWhile, empty_pool)).2) <= 1)%nat.
Proof.
  rewrite run_app.
  assert (Hst : run stop_before_get (AtWhile, empty_pool) =
                (AtGet, (run stop_before_get (AtWhile, empty_pool)).2))
    by reflexivity.
  rewrite Hst.
  destruct (at_most_one_dispatch_after_stop [SchedulerTurn; SchedulerTurn; StatusTurn]
              AtGet (run stop_before_get (AtWhile, empty_pool)).2 eq_refl) as [_ H].
  exact H.
Defined.

(** ** What a worker process does in all *)

Lemma wcount_snoc (f : wevent -> bool) (tr : list wevent) (e : wevent) :
  wcount f (tr ++ [e]) = (wcount f tr + (if f e then 1 else 0))%nat.
Proof.
  unfold wcount. rewrite filter_app, length_app. f_equal.
  destruct (f e) eqn:He.
  - rewrite filter_cons_True; [done|]. simpl. by rewrite He.
  - rewrite filter_cons_False; [done|]. simpl. rewrite He. by intros [].
Qed.

Ltac count_events :=
  unfold lock_delta, executions, results_sent, acquired, released in *;
  simpl; rewrite ?wcount_snoc; simpl; lia.

(** A transaction executes nothing and sends no results; it takes the lock
    once and has left it unless it waits inside. *)
Lemma task_transaction_counts (getpid : Z) (w : World) :
  executions (trace (wfinal (task_transaction getpid w))) = executions (trace w) /\
  results_sent (trace (wfinal (task_transaction getpid w))) = results_sent (trace w) /\
  acquired (trace (wfinal (task_transaction getpid w))) = S (acquired (trace w)) /\
  match task_transaction getpid w with
  | Done _ w' | Raised _ w' => released (trace w') = S (released (trace w))
  | Blocked w' => released (trace w') = released (trace w)
  | _ => False
  end.
Proof.
  unfold task_transaction, channel_lock, wbind, channel_poll0. simpl.
  destruct (poll0_replies w) as [|[[|]|f] l]; simpl; try (repeat split; count_events).
  unfold channel_recv. simpl.
  destruct (recv_replies w) as [|[m|f] lr]; simpl; try (repeat split; count_events).
  destruct m as [|id payload|t r|wk t]; simpl; try (repeat split; count_events).
  unfold channel_send. simpl.
  destruct (send_replies w) as [|[[]|f] ls]; simpl; repeat split; count_events.
Qed.

Lemma lock_delta_trans (d : nat) (w1 w2 w3 : World) :
  lock_delta 0 w1 w2 -> lock_delta d w2 w3 -> lock_delta d w1 w3.
Proof. unfold lock_delta. lia. Qed.

Lemma lock_left_trans {A} (w1 w2 : World) (r : wres A) :
  lock_delta 0 w1 w2 -> lock_left w2 r -> lock_left w1 r.
Proof.
  intros H1. destruct r; simpl; try apply (lock_delta_trans _ _ _ _ H1).
  intros [H|H]; [left|right]; by eapply lock_delta_trans.
Qed.

Lemma fetch_task_counts (getpid : Z) (fuel : nat) (w : World) :
  executions (trace (wfinal (fetch_task fuel getpid w))) = executions (trace w) /\
  results_sent (trace (wfinal (fetch_task fuel getpid w))) = results_sent (trace w) /\
  lock_left w (fetch_task fuel getpid w).
Proof.
  revert w. induction fuel as [|fuel IH]; intros w.
  - simpl. unfold lock_delta. repeat split; lia.
  - simpl. unfold wbind, channel_poll.
    destruct (poll_replies w) as [|[[|]|n] l]; simpl;
      try (unfold lock_delta; repeat split; first [left; count_events|count_events]).
    set (w1 := set_poll_replies l w).
    destruct (task_transaction_counts getpid w1) as (Hx & Hr & Ha & Hl).
    change (trace w1) with (trace w) in Hx, Hr, Ha, Hl.
    destruct (task_transaction getpid w1) as [m w2|e w2|w2|c w2|w2]; simpl in *;
      try done.
    + unfold lock_delta. repeat split; [done|done|lia].
    + destruct e; simpl; try (unfold lock_delta; repeat split; [done|done|lia]).
      destruct (IH w2) as (Hx2 & Hr2 & Hl2). repeat split; [congruence|congruence|].
      eapply lock_left_trans; [|exact Hl2]. unfold lock_delta. lia.
    + unfold lock_delta. repeat split; [done|done|right; lia].
Qed.

(** One turn of the loop of the worker: it serves one task and goes on, or
    it stops there without returning. *)
Lemma worker_round (getpid : Z) (fuel : nat) (limit counter : Z) (w : World) :
  (limit =? 0) || (counter <? limit) = true ->
  (exists w1,
     worker_loop (S fuel) getpid limit counter w =
     worker_loop fuel getpid limit (if limit =? 0 then counter else counter + 1) w1 /\
     executions (trace w1) = S (executions (trace w)) /\
     results_sent (trace w1) = S (results_sent (trace w)) /\
     lock_delta 0 w w1) \/
  (returned (worker_loop (S fuel) getpid limit counter w) = false /\
   (executions (trace (wfinal (worker_loop (S fuel) getpid limit counter w)))
    <= S (executions (trace w)))%nat /\
   results_sent (trace (wfinal (worker_loop (S fuel) getpid limit counter w))) =
   results_sent (trace w) /\
   lock_left w (worker_loop (S fuel) getpid limit counter w)).
Proof.
  intros Hguard.
  remember (worker_loop (S fuel) getpid limit counter w) as res eqn:Hres.
  cbn [worker_loop] in Hres. rewrite Hguard in Hres.
  unfold wbind at 1 in Hres.
  destruct (fetch_task_counts getpid (S fuel) w) as (Hx & Hr & Hl).
  destruct (fetch_task (S fuel) getpid w) as [task w1|e w1|w1|c w1|w1];
    simpl in Hx, Hr, Hl; try (subst res; right; simpl; repeat split; [lia|done|done]).
  destruct task as [[|id payload|t r|wk t]|];
    try (subst res; right; simpl; repeat split; [lia|done|done]).
  unfold wbind at 1 in Hres. simpl in Hres.
  destruct payload as [p|p']; [|subst res; right; simpl; repeat split; [lia|done|done]].
  unfold wbind at 1 in Hres. simpl in Hres. unfold execute in Hres.
  destruct (execute_replies (log (WExecute p) w1)) as [|r lx] eqn:Hex.
  { subst res. right. simpl. unfold lock_delta in *.
    repeat split; [count_events|count_events|].
    left. revert Hl. count_events. }
  simpl in Hres. unfold wbind at 1 in Hres. simpl in Hres. unfold wbind at 1 in Hres.
  unfold send_results, channel_send in Hres. simpl in Hres.
  destruct (send_replies w1) as [|[[]|n] ls]; simpl in Hres.
  - subst res. right. unfold lock_delta in *. simpl.
    repeat split; [count_events|count_events|].
    left. revert Hl. count_events.
  - left. eexists. split; [exact Hres|]. unfold lock_delta in *.
    repeat split; [count_events|count_events|]. revert Hl. count_events.
  - subst res. right. unfold lock_delta in *. simpl.
    repeat split; [count_events|count_events|].
    revert Hl. count_events.
Qed.

Lemma worker_loop_lock (getpid : Z) (fuel : nat) (limit counter : Z) (w : World) :
  lock_left w (worker_loop fuel getpid limit counter w).
Proof.
  revert counter w. induction fuel as [|fuel IH]; intros counter w.
  - simpl. count_events.
  - destruct ((limit =? 0) || (counter <? limit)) eqn:Hguard.
    + destruct (worker_round getpid fuel limit counter w Hguard)
        as [(w1 & -> & _ & _ & Hl)|(_ & _ & _ & Hl)]; [|exact Hl].
      eapply lock_left_trans; [exact Hl|apply IH].
    + cbn [worker_loop]. rewrite Hguard. simpl. count_events.
Qed.

Lemma worker_loop_limit (getpid : Z) (fuel : nat) (limit counter : Z) (w : World) :
  0 < limit ->
  (executions (trace (wfinal (worker_loop fuel getpid limit counter w)))
   <= executions (trace w) + Z.to_nat (limit - counter))%nat /\
  (results_sent (trace (wfinal (worker_loop fuel getpid limit counter w)))
   <= results_sent (trace w) + Z.to_nat (limit - counter))%nat /\
  (returned (worker_loop fuel getpid limit counter w) = true ->
   executions (trace (wfinal (worker_loop fuel getpid limit counter w))) =
   (executions (trace w) + Z.to_nat (limit - counter))%nat /\
   results_sent (trace (wfinal (worker_loop fuel getpid limit counter w))) =
   (results_sent (trace w) + Z.to_nat (limit - counter))%nat).
Proof.
  intros Hpos. revert counter w. induction fuel as [|fuel IH]; intros counter w.
  - simpl. split; [lia|]. split; [lia|done].
  - assert (Hz : (limit =? 0) = false) by (apply Z.eqb_neq; lia).
    destruct ((limit =? 0) || (counter <? limit)) eqn:Hguard.
    + assert (Hlt : counter < limit).
      { rewrite Hz in Hguard. simpl in Hguard. by apply Z.ltb_lt. }
      destruct (worker_round getpid fuel limit counter w Hguard)
        as [(w1 & -> & Hx & Hr & _)|(Hret & Hx & Hr & _)].
      * rewrite Hz. destruct (IH (counter + 1) w1) as (Hx1 & Hr1 & Hdone).
        rewrite Hx, Hr in *.
        replace (Z.to_nat (limit - counter)) with (S (Z.to_nat (limit - (counter + 1))))
          by lia.
        split; [lia|]. split; [lia|]. intros Hd. destruct (Hdone Hd). lia.
      * rewrite Hret, Hr. split; [lia|]. split; [lia|done].
    + cbn [worker_loop]. rewrite Hguard. simpl.
      assert (Hge : limit <= counter).
      { rewrite Hz in Hguard. simpl in Hguard. by apply Z.ltb_ge. }
      replace (Z.to_nat (limit - counter)) with 0%nat by lia.
      split; [lia|]. split; [lia|]. intros _. lia.
Qed.


(** X12. A worker with a task limit executes at most that many payloads
    and sends at most that many results, however the channel and the
    payloads answer; and when [worker_process] returns, it has executed
    exactly [task_limit] payloads and sent exactly [task_limit] results:
    the worker ends after serving as many tasks as the limit says. *)
Theorem worker_task_limit
    (params : WorkerParameters) (getpid : Z) (fuel : nat) (w : World) :
  0 < task_limit params ->
  (executions (trace (wfinal (worker_process params getpid fuel w)))
   <= executions (trace w) + Z.to_nat (task_limit params))%nat /\
  (results_sent (trace (wfinal (worker_process params getpid fuel w)))
   <= results_sent (trace w) + Z.to_nat (task_limit params))%nat /\
  (returned (worker_process params getpid fuel w) = true ->
   executions (trace (wfinal (worker_process params getpid fuel w))) =
   (executions (trace w) + Z.to_nat (task_limit params))%nat /\
   results_sent (trace (wfinal (worker_process params getpid fuel w))) =
   (results_sent (trace w) + Z.to_nat (task_limit params))%nat).
Proof.
  intros Hpos.
  pose proof (worker_loop_limit getpid fuel (task_limit params) 0 w Hpos) as H.
  rewrite Z.sub_0_r in H.
  unfold worker_process, wbind.
  destruct (initializer params) as [[|]|]; simpl;
    try (repeat split; [lia|lia|done|done]);
    destruct (worker_loop fuel getpid (task_limit params) 0 w) as [[] w1|e w1|w1|c w1|w1];
    simpl in *; try exact H;
    try (destruct (deinitializer params) as [[|]|]; simpl;
         try exact H; destruct H as (? & ? & ?); repeat split; done);
    destruct e as [|[|]| |]; simpl; exact H.
Qed.

Lemma worker_task_limit_witness :
  executions (trace (wfinal (worker_process limited_parameters 100 3 one_task_world))) = 1%nat /\
  results_sent (trace (wfinal (worker_process limited_parameters 100 3 one_task_world))) = 1%nat.
Proof.
  assert (Hpos : 0 < task_limit limited_parameters) by (simpl; lia).
  destruct (worker_task_limit limited_parameters 100 3 one_task_world Hpos)
    as (_ & _ & H).
  exact (H eq_refl).
Defined.



(** X14. A worker process holds the channel lock only inside
    [task_transaction]: whenever it returns, raises or leaves through
    [os._exit] it has left the lock as often as it entered it, and while it
    waits on a call it holds the lock at most once. *)
Theorem worker_leaves_lock
    (params : WorkerParameters) (getpid : Z) (fuel : nat) (w : World) :
  lock_left w (worker_process params getpid fuel w).
Proof.
  pose proof (worker_loop_lock getpid fuel (task_limit params) 0 w) as H.
  unfold worker_process, wbind.
  destruct (initializer params) as [[|]|]; simpl; try count_events;
    destruct (worker_loop fuel getpid (task_limit params) 0 w) as [[] w1|e w1|w1|c w1|w1];
    simpl in *; try exact H;
    try (by destruct (deinitializer params) as [[|]|]);
    by destruct e as [|[|]| |].
Qed.
